(** * i18n: translation-catalog loader and per-request locale resolver

    A shallow embedding of [src/i18n.js], which ships the module twice: as a
    singleton keeping its configuration in module-level variables
    (lines 1-307) and as a constructor [I18n] keeping it on the instance
    (lines 308-594).  The two bodies differ in three places only; the
    embedding takes the variant as a parameter and branches where they do.

    JavaScript values are an inductive type, the module variables a record
    threaded through every operation, asynchronous completions (the parse of
    a PO file) are events of a step function, and everything the module
    does to the outside (log calls, callback invocations) is appended to a
    trace.  Platform and third-party code ([path], [fs], [jed], [sprintf]) is
    an environment record; the join of [async.each], on which the timing of
    the callback of initialize rests, is written out in [done] and
    [initialize]. *)

From Stdlib Require Import Floats.PrimFloat.
From Stdlib Require Import Ascii String.
From stdpp Require Import gmap strings list fin_maps.

#[local] Set Warnings "-register-all".
Open Scope string_scope.

(** ** JavaScript values *)

(** The parsed catalog handed over by [po2json.parseFile]: opaque to this
    module, it is only stored in the Jed instance. *)
Definition PoData := list (string * list string).

Inductive value :=
| VUndefined
| VNull
| VBool (b : bool)
| VNum (x : float)
| VStr (s : string)
| VObject (props : gmap string value)
    (* a plain object: its own enumerable properties *)
| VError (name : string) (message : string)
    (* an Error object: [new Error(message)], or a TypeError / ReferenceError
       raised by the engine *)
| VLocale (code : string) (plural_forms : value) (data : PoData)
    (* the Jed instance built by loadLanguage from [data], after
       [locale_data.the_domain] received its configuration block (domain
       'mobile_web', lang [code], plural_forms [plural_forms]) and after
       [locale.code = code], [locale.__] and [locale._n] were attached *)
| VTr (locale : value)
    (* the function stored in [locale.__]; it closes over the variable
       [locale] of loadLanguage, whose value is its argument *)
| VTrn (locale : value)
    (* the function stored in [locale._n], likewise *)
| VFunction (id : nat)
    (* any other function of the application, by identity *)
| VBuiltin (name : string).
    (* a function of the engine, by name *)

(** The two copies of the module. *)
Inductive Variant := Singleton | ClassBased.

(** Result of a call that may throw. *)
Inductive Outcome (A : Type) :=
| Returned (a : A)
| Threw (exn : value).
Arguments Returned {A} a.
Arguments Threw {A} exn.

(** ToBoolean. *)
Definition truthy (v : value) : bool :=
  match v with
  | VUndefined | VNull => false
  | VBool b => b
  | VNum x => negb (PrimFloat.eqb x 0%float || negb (PrimFloat.eqb x x))
  | VStr s => negb (String.eqb s EmptyString)
  | VObject _ | VError _ _ | VLocale _ _ _
  | VTr _ | VTrn _ | VFunction _ | VBuiltin _ => true
  end.

(** [typeof v === 'string'], [typeof v === 'function'] / [_.isFunction(v)],
    [v === undefined]. *)
Definition is_string (v : value) : bool :=
  match v with VStr _ => true | _ => false end.

Definition is_function (v : value) : bool :=
  match v with VTr _ | VTrn _ | VFunction _ | VBuiltin _ => true | _ => false end.

Definition is_undefined (v : value) : bool :=
  match v with VUndefined => true | _ => false end.

(** The properties every object inherits from [Object.prototype]: its
    methods, [constructor], and the accessor [__proto__], which on a plain
    object yields [Object.prototype] itself, an object without enumerable
    properties. *)
Definition object_prototype : list (string * value) :=
  [("constructor", VBuiltin "Object");
   ("hasOwnProperty", VBuiltin "Object.prototype.hasOwnProperty");
   ("isPrototypeOf", VBuiltin "Object.prototype.isPrototypeOf");
   ("propertyIsEnumerable", VBuiltin "Object.prototype.propertyIsEnumerable");
   ("toLocaleString", VBuiltin "Object.prototype.toLocaleString");
   ("toString", VBuiltin "Object.prototype.toString");
   ("valueOf", VBuiltin "Object.prototype.valueOf");
   ("__defineGetter__", VBuiltin "Object.prototype.__defineGetter__");
   ("__defineSetter__", VBuiltin "Object.prototype.__defineSetter__");
   ("__lookupGetter__", VBuiltin "Object.prototype.__lookupGetter__");
   ("__lookupSetter__", VBuiltin "Object.prototype.__lookupSetter__");
   ("__proto__", VObject ∅)].

(** The first value a list of properties has under a key, [undefined] when
    it has none. *)
Fixpoint assoc (props : list (string * value)) (k : string) : value :=
  match props with
  | [] => VUndefined
  | (k', x) :: rest => if String.eqb k' k then x else assoc rest k
  end.

(** What a plain object that has no property [k] of its own yields for
    [o[k]]. *)
Definition inherited (k : string) : value := assoc object_prototype k.

(** Reading a property of a plain object, such as the [{}] the module uses
    as a map: the object's own property when it has one, the inherited one
    otherwise. *)
Definition js_get (o : gmap string value) (k : string) : value :=
  match o !! k with
  | Some x => x
  | None => inherited k
  end.

(** ** The environment: platform and third-party libraries *)

Record Env := {
  cwd : string;                              (* process.cwd() *)
  path_join : string -> string -> string;    (* path.join(a, b) *)
  existsSync : string -> bool;               (* fs.existsSync(file) *)
  jed_fetch : value -> value -> option (value * value) -> list value -> Outcome value;
    (* [jed_fetch locale key None args] is
         locale.translate(key).fetch(args)
       and [jed_fetch locale key (Some (number, pkey)) args] is
         locale.translate(key).ifPlural(number, pkey).fetch(args) *)
  vsprintf : value -> list value -> Outcome value;  (* sprintf's vsprintf *)
  number_to_string : float -> string;        (* ToString on a number *)
  function_to_string : value -> string;      (* ToString on a function *)
  jed_get : value -> string -> value;
    (* [jed_get locale k]: the property [k] of a Jed instance other than the
       three loadLanguage puts on it *)
  enumerable : value -> gmap string value;
    (* what [for (k in v)] finds on a value that is not a plain object, [null]
       or [undefined]; for a Jed instance, apart from the three properties
       loadLanguage puts on it *)
  cannot_read : value -> string -> string;
    (* the message of the TypeError for [v.k] on [undefined] or [null] *)
  not_callable : string -> string
    (* the message of the TypeError for calling an expression that does not
       hold a function *)
}.

(** [v.k] for a value that is not [undefined] or [null], for the properties
    the module reads ([name], [plurals], [code], [__], [_n], [helpers]).  A
    plain object has its own and the inherited ones; a locale object the three
    loadLanguage put on it and what the Jed instance has besides; primitives,
    errors and functions are taken to have none of them. *)
Definition get_prop (env : Env) (v : value) (k : string) : value :=
  match v with
  | VObject props => js_get props k
  | VLocale code _ _ =>
      if String.eqb k "code" then VStr code
      else if String.eqb k "__" then VTr v
      else if String.eqb k "_n" then VTrn v
      else jed_get env v k
  | _ => VUndefined
  end.

(** [v.k] as the engine evaluates it: a TypeError on [undefined] and [null]. *)
Definition get_prop_checked (env : Env) (v : value) (k : string) : Outcome value :=
  match v with
  | VUndefined | VNull => Threw (VError "TypeError" (cannot_read env v k))
  | _ => Returned (get_prop env v k)
  end.

(** ToString, as string concatenation and property keys apply it. *)
Definition to_string (env : Env) (v : value) : string :=
  match v with
  | VUndefined => "undefined"
  | VNull => "null"
  | VBool true => "true"
  | VBool false => "false"
  | VNum x => number_to_string env x
  | VStr s => s
  | VObject _ | VLocale _ _ _ => "[object Object]"
  | VError name message => name ++ ": " ++ message
  | VTr _ | VTrn _ | VFunction _ | VBuiltin _ => function_to_string env v
  end.

(** ** Argument lists of the translation helpers *)

(** [_.compact(array)]: the elements that are truthy. *)
Definition compact (args : list value) : list value :=
  filter (fun v => truthy v = true) args.

(** [arguments[i]], [undefined] past the end. *)
Definition nth_arg (arguments : list value) (i : nat) : value :=
  default VUndefined (arguments !! i).

(** Lines 194-199 and 498-503: the copy of [arguments] that [locale.__]
    passes on. *)
Definition tr_args (arguments : list value) : list value :=
  let args := arguments in
  if (2 <=? length args)%nat then
    let args := <[0 := VNull]> args in
    let args := <[(length args - 1)%nat := VNull]> args in
    compact args
  else args.

(** Lines 228-234 and 532-538: the same for [locale._n]. *)
Definition trn_args (arguments : list value) : list value :=
  let args := arguments in
  if (4 <=? length args)%nat then
    let args := <[0 := VNull]> args in
    let args := <[1 := VNull]> args in
    let args := <[(length args - 1)%nat := VNull]> args in
    compact args
  else args.

(** ** Module state *)

(** A log sink: one of the four [debug] loggers the module creates for
    itself ('i18n:debug', 'i18n:info', 'i18n:warn', 'i18n:error'), or a
    function supplied in the options. *)
Inductive LogFn :=
| DefaultLogger (namespace : string)
| CustomLogger (f : value).

(** What the module does to the outside. *)
Inductive Effect :=
| Log (fn : LogFn) (args : list value)
    (* [fn(args...)] *)
| Resolved (join : nat) (code : string) (err : value)
    (* the item [code] of the [async.each] started by the [join]-th call of
       initialize called [done(err)] *)
| Invoke (join : nat) (callback : value) (err : value).
    (* [callback(err)]: the callback given to that call of initialize *)

(** One [po2json.parseFile] call that has not called back yet, with what its
    continuation closes over: the arguments of loadLanguage and the [done]
    of the [async.each] item. *)
Record PendingLoad := {
  p_code : string;
  p_plurals : value;
  p_file : string;
  p_join : nat
}.

(** The bookkeeping of one [async.each] call. *)
Record Join := {
  j_total : nat;       (* arr.length *)
  j_completed : nat;   (* completed *)
  j_live : bool;       (* false once [callback] was replaced by a no-op *)
  j_callback : value   (* the callback given to initialize *)
}.

Record State := {
  (* the module variables (singleton) or instance fields (class) *)
  defaultLocale : value;
  languages : list (string * value);   (* own enumerable properties, in key order *)
  languageCodes : list string;
  pathToTranslations : string;
  loadedLanguages : gmap string value;
  middlewareLocale : option (list string);  (* [locale(codes)], or null *)
  logDebugFn : LogFn;
  logInfoFn : LogFn;
  logWarnFn : LogFn;
  logErrorFn : LogFn;
  (* the run-time around them *)
  pending : list PendingLoad;
  joins : list Join;
  trace : list Effect
}.

Definition emit (e : Effect) (s : State) : State :=
  {| defaultLocale := defaultLocale s; languages := languages s;
     languageCodes := languageCodes s; pathToTranslations := pathToTranslations s;
     loadedLanguages := loadedLanguages s; middlewareLocale := middlewareLocale s;
     logDebugFn := logDebugFn s; logInfoFn := logInfoFn s;
     logWarnFn := logWarnFn s; logErrorFn := logErrorFn s;
     pending := pending s; joins := joins s; trace := trace s ++ [e] |}.

Definition set_pending (p : list PendingLoad) (s : State) : State :=
  {| defaultLocale := defaultLocale s; languages := languages s;
     languageCodes := languageCodes s; pathToTranslations := pathToTranslations s;
     loadedLanguages := loadedLanguages s; middlewareLocale := middlewareLocale s;
     logDebugFn := logDebugFn s; logInfoFn := logInfoFn s;
     logWarnFn := logWarnFn s; logErrorFn := logErrorFn s;
     pending := p; joins := joins s; trace := trace s |}.

Definition set_joins (js : list Join) (s : State) : State :=
  {| defaultLocale := defaultLocale s; languages := languages s;
     languageCodes := languageCodes s; pathToTranslations := pathToTranslations s;
     loadedLanguages := loadedLanguages s; middlewareLocale := middlewareLocale s;
     logDebugFn := logDebugFn s; logInfoFn := logInfoFn s;
     logWarnFn := logWarnFn s; logErrorFn := logErrorFn s;
     pending := pending s; joins := js; trace := trace s |}.

Definition set_loadedLanguages (m : gmap string value) (s : State) : State :=
  {| defaultLocale := defaultLocale s; languages := languages s;
     languageCodes := languageCodes s; pathToTranslations := pathToTranslations s;
     loadedLanguages := m; middlewareLocale := middlewareLocale s;
     logDebugFn := logDebugFn s; logInfoFn := logInfoFn s;
     logWarnFn := logWarnFn s; logErrorFn := logErrorFn s;
     pending := pending s; joins := joins s; trace := trace s |}.

Definition set_defaultLocale (d : value) (s : State) : State :=
  {| defaultLocale := d; languages := languages s;
     languageCodes := languageCodes s; pathToTranslations := pathToTranslations s;
     loadedLanguages := loadedLanguages s; middlewareLocale := middlewareLocale s;
     logDebugFn := logDebugFn s; logInfoFn := logInfoFn s;
     logWarnFn := logWarnFn s; logErrorFn := logErrorFn s;
     pending := pending s; joins := joins s; trace := trace s |}.

Definition set_middlewareLocale (m : option (list string)) (s : State) : State :=
  {| defaultLocale := defaultLocale s; languages := languages s;
     languageCodes := languageCodes s; pathToTranslations := pathToTranslations s;
     loadedLanguages := loadedLanguages s; middlewareLocale := m;
     logDebugFn := logDebugFn s; logInfoFn := logInfoFn s;
     logWarnFn := logWarnFn s; logErrorFn := logErrorFn s;
     pending := pending s; joins := joins s; trace := trace s |}.

(** The module before configure ran: nothing is pending and nothing was
    emitted.  Its variables are still unassigned; configure assigns every one
    of them, so the placeholders below are never read. *)
Definition fresh : State :=
  {| defaultLocale := VUndefined; languages := []; languageCodes := [];
     pathToTranslations := EmptyString; loadedLanguages := ∅;
     middlewareLocale := None;
     logDebugFn := DefaultLogger "i18n:debug"; logInfoFn := DefaultLogger "i18n:info";
     logWarnFn := DefaultLogger "i18n:warn"; logErrorFn := DefaultLogger "i18n:error";
     pending := []; joins := []; trace := [] |}.

(** ** The translation helpers (lines 193-256 and 497-560) *)

(** [number === 1]. *)
Definition is_one (number : value) : bool :=
  match number with VNum x => PrimFloat.eqb x 1%float | _ => false end.

(** The [catch] handlers of the branch without a catalog.  The singleton
    evaluates [Logger.error(err)] where no [Logger] is in scope, which throws
    a ReferenceError out of the handler; the class calls its error logger and
    returns the text. *)
Definition format_failed (v : Variant) (err text : value) (s : State)
  : State * Outcome value :=
  match v with
  | Singleton => (s, Threw (VError "ReferenceError" "Logger is not defined"))
  | ClassBased => (emit (Log (logErrorFn s) [err]) s, Returned text)
  end.

Definition format_or_text (env : Env) (v : Variant) (text : value)
    (args : list value) (s : State) : State * Outcome value :=
  match vsprintf env text args with
  | Returned translated => (s, Returned translated)
  | Threw err => format_failed v err text s
  end.

(** [locale.__(arguments...)], the function the source documents as [tr], for
    the closure whose variable [locale] holds [locale]. *)
Definition tr (env : Env) (v : Variant) (locale : value)
    (arguments : list value) (s : State) : State * Outcome value :=
  let text := nth_arg arguments 0 in
  let args := tr_args arguments in
  if truthy locale then (s, jed_fetch env locale text None args)
  else format_or_text env v text args s.

(** [locale._n(arguments...)], documented as [trn], likewise. *)
Definition trn (env : Env) (v : Variant) (locale : value)
    (arguments : list value) (s : State) : State * Outcome value :=
  let sText := nth_arg arguments 0 in
  let pText := nth_arg arguments 1 in
  let number := nth_arg arguments 2 in
  let args := trn_args arguments in
  if truthy locale then (s, jed_fetch env locale sText (Some (number, pText)) args)
  else if is_one number then format_or_text env v sText args s
  else format_or_text env v pText args s.

(** Calling a function value with an argument list; only the two helpers have
    a body in this module. *)
Definition call (env : Env) (v : Variant) (f : value) (arguments : list value)
    (s : State) : option (State * Outcome value) :=
  match f with
  | VTr locale => Some (tr env v locale arguments s)
  | VTrn locale => Some (trn env v locale arguments s)
  | _ => None
  end.

(** ** configure (lines 27-57) and the constructor (lines 331-364) *)

Record Options := {
  opt_defaultLocale : value;
  opt_languages : option (list (string * value));
    (* [Some kvs] when [typeof options.languages === 'object']: the own
       enumerable properties in the order of [Object.keys]; [None] otherwise.
       ([null], whose typeof is 'object' too and on which [Object.keys]
       throws, is not an input of the model; nor is a registry with an own
       key '__proto__', which the assignment [loadedLanguages[code] = locale]
       would take for the prototype.) *)
  opt_pathToTranslations : value;
  opt_logDebugFn : value;
  opt_logInfoFn : value;
  opt_logWarnFn : value;
  opt_logErrorFn : value
}.

Definition string_or (v : value) (dflt : string) : string :=
  match v with VStr s => s | _ => dflt end.

Definition logger_or (v : value) (namespace : string) : LogFn :=
  if is_function v then CustomLogger v else DefaultLogger namespace.

(** The assignments of configure, then its check of the registry.  The state
    it starts from contributes only what configure leaves alone: the pending
    loads, the joins and the trace. *)
Definition configure (env : Env) (options : Options) (s : State) : State :=
  let langs := default [] (opt_languages options) in
  let s' :=
    {| defaultLocale := VStr (string_or (opt_defaultLocale options) "en");
       languages := langs;
       languageCodes := langs.*1;
       pathToTranslations :=
         string_or (opt_pathToTranslations options) (path_join env (cwd env) "i18n");
       loadedLanguages := ∅;
       middlewareLocale := None;
       logDebugFn := logger_or (opt_logDebugFn options) "i18n:debug";
       logInfoFn := logger_or (opt_logInfoFn options) "i18n:info";
       logWarnFn := logger_or (opt_logWarnFn options) "i18n:warn";
       logErrorFn := logger_or (opt_logErrorFn options) "i18n:error";
       pending := pending s; joins := joins s; trace := trace s |} in
  if (length (languageCodes s') =? 0)%nat then
    emit (Log (logErrorFn s') [VStr "No languages defined, nothing to handle"]) s'
  else s'.

(** ** getLocaleForLanguage (lines 273-286 and 577-590) *)

(** The double quote, for the messages that contain one. *)
Definition dq : string := String (Ascii.ascii_of_nat 34) EmptyString.

Definition getLocaleForLanguage (env : Env) (v : Variant) (code : value)
    (s : State) : value * State :=
  let locale := VNull in
  let locale :=
    if truthy code && truthy (js_get (loadedLanguages s) (to_string env code))
    then js_get (loadedLanguages s) (to_string env code)
    else locale in
  if negb (truthy locale) then
    match v with
    | Singleton =>
        (defaultLocale s,
         emit (Log (logInfoFn s)
                 [VStr ("Using default locale because there is none matching the request's language "
                        ++ dq ++ "%s" ++ dq); code]) s)
    | ClassBased =>
        (js_get (loadedLanguages s) (to_string env (defaultLocale s)),
         emit (Log (logDebugFn s)
                 [VStr ("Using default locale " ++ dq ++ to_string env (defaultLocale s) ++ dq
                        ++ " because there is none matching the request's language "
                        ++ dq ++ "%s" ++ dq); code]) s)
    end
  else (locale, s).

(** ** initialize (lines 109-145 and 413-449) *)

(** [languages[code]]. *)
Fixpoint registry_get (langs : list (string * value)) (code : string) : value :=
  match langs with
  | [] => VUndefined
  | (k, info) :: rest => if String.eqb k code then info else registry_get rest code
  end.

(** The function given to [async.each] as its last argument, called with
    [err] for the [join]-th call of initialize. *)
Definition finished (env : Env) (join : nat) (callback err : value) (s : State)
  : State :=
  let s :=
    if truthy err
    then emit (Log (logErrorFn s) [VStr ("Error loading i18n: " ++ to_string env err)]) s
    else emit (Log (logInfoFn s) [VStr "Finished loading i18n"]) s in
  if is_function callback then emit (Invoke join callback err) s else s.

(** [done(err)] of one item.  This is [async.each] of the async library, which
    is not part of the repository: on an error it calls the final callback at
    once and replaces it by a no-op; otherwise it counts the item and calls
    the final callback, without an error, when the count reaches the length
    of the array.  (Releases before 1.0 pass no argument then, later ones
    [null]; the model passes [null].) *)
Definition done (env : Env) (join : nat) (code : string) (err : value) (s : State)
  : State :=
  let s := emit (Resolved join code err) s in
  match joins s !! join with
  | None => s
  | Some j =>
      if truthy err then
        let s := set_joins (<[join := {| j_total := j_total j; j_completed := j_completed j;
                                         j_live := false; j_callback := j_callback j |}]> (joins s)) s in
        if j_live j then finished env join (j_callback j) err s else s
      else
        let completed := S (j_completed j) in
        let s := set_joins (<[join := {| j_total := j_total j; j_completed := completed;
                                         j_live := j_live j; j_callback := j_callback j |}]> (joins s)) s in
        if (j_total j <=? completed)%nat && j_live j
        then finished env join (j_callback j) VNull s
        else s
  end.

(** The function applied to each language code. *)
Definition load_item (env : Env) (join : nat) (s : State) (code : string) : State :=
  let info := registry_get (languages s) code in
  if truthy info && truthy (get_prop env info "name")
     && truthy (get_prop env info "plurals") then
    let file := path_join env (pathToTranslations s) (code ++ "/LC_MESSAGES/messages.po") in
    if existsSync env file then
      let s := emit (Log (logInfoFn s)
                       [VStr ("Loading i18n for " ++ to_string env (get_prop env info "name")
                              ++ " from " ++ file)]) s in
      (* i18n.loadLanguage(code, info, file, ...): po2json.parseFile is started *)
      set_pending (pending s ++ [{| p_code := code; p_plurals := info;
                                    p_file := file; p_join := join |}]) s
    else done env join code (VStr ("Could not locate language file " ++ file)) s
  else done env join code (VStr ("No plural information for " ++ code)) s.

(** [async.each(languageCodes, load_item, finished)]: with an empty array the
    final callback is called at once, otherwise the function is applied to
    every element in turn. *)
Definition initialize (env : Env) (callback : value) (s : State) : State :=
  let join := length (joins s) in
  let codes := languageCodes s in
  let s := set_joins (joins s ++ [{| j_total := length codes; j_completed := 0;
                                     j_live := true; j_callback := callback |}]) s in
  if (length codes =? 0)%nat then finished env join callback VNull s
  else foldl (load_item env join) s codes.

(** ** loadLanguage (lines 147-271 and 451-575) *)

Inductive ParseResult :=
| ParseOk (data : PoData)
| ParseErr (err : value).

(** The callback given to [po2json.parseFile], for the pending load [p]. *)
Definition parsed (env : Env) (p : PendingLoad) (r : ParseResult) (s : State)
  : State :=
  let code := p_code p in
  match r with
  | ParseErr err =>
      done env (p_join p) code
        (VError "Error" ("Error parsing po file for " ++ code ++ ": " ++ to_string env err)) s
  | ParseOk data =>
      let locale := VLocale code (p_plurals p) data in
      if truthy locale then
        let s := set_loadedLanguages (<[code := locale]> (loadedLanguages s)) s in
        let s := if negb (truthy (defaultLocale s)) then set_defaultLocale locale s else s in
        let s := emit (Log (logInfoFn s) [VStr ("Loading Finished i18n for " ++ code)]) s in
        done env (p_join p) code VUndefined s
      else
        done env (p_join p) code
          (VError "Error" ("Unknown error loading i18n for " ++ code)) s
  end.

(** ** The middleware (lines 60-105 and 366-411) *)

(** [i18n.middleware()]: creates the negotiation middleware of the [locale]
    library over the language codes on the first call. *)
Definition middleware (s : State) : State :=
  match middlewareLocale s with
  | Some _ => s
  | None => set_middlewareLocale (Some (languageCodes s)) s
  end.

(** The call [originalRender.bind(res)(view, options, callback)]: the
    function called, with the response as its [this], and its arguments. *)
Record RenderCall := {
  rc_function : value;
  rc_view : value;
  rc_options : value;
  rc_callback : value
}.

(** The properties [_.extend] copies from a source: none from [undefined] and
    [null], its properties from a plain object, and from any other value what
    [for in] finds on it; on a locale object these are the three properties
    loadLanguage put on it with whatever the Jed instance has besides. *)
Definition own_props (env : Env) (source : value) : gmap string value :=
  match source with
  | VObject props => props
  | VUndefined | VNull => ∅
  | VLocale code _ _ =>
      <["_n" := VTrn source]> (<["__" := VTr source]> (<["code" := VStr code]>
        (enumerable env source)))
  | _ => enumerable env source
  end.

(** [_.extend({}, options, extra)]: the properties of [options], then those of
    [extra] over them. *)
Definition extend (env : Env) (options : value) (extra : gmap string value) : value :=
  VObject (extra ∪ (own_props env options ∪ ∅)).

(** The object literal of lines 90-95. *)
Definition helpers_of (env : Env) (locale : value) : gmap string value :=
  <["_n" := get_prop env locale "_n"]>
  (<["trn" := get_prop env locale "_n"]>
  (<["__" := get_prop env locale "__"]>
  (<["tr" := get_prop env locale "__"]> ∅))).

(** The function assigned to [res.render] (lines 84-100), for the closure
    whose variables [originalRender] and [locale] hold these values: the call
    it makes on the original render. *)
Definition render (env : Env) (originalRender locale view options callback : value)
  : Outcome RenderCall :=
  let '(options, callback) :=
    if is_undefined callback && is_function options
    then (VObject ∅, options)
    else (options, callback) in
  match get_prop_checked env locale "__" with
  | Threw e => Threw e
  | Returned _ =>
      let helpers := helpers_of env locale in
      let options := extend env options {[ "helpers" := VObject helpers ]} in
      Returned {| rc_function := originalRender; rc_view := view;
                  rc_options := options; rc_callback := callback |}
  end.

(** What the handler leaves on the request and the response. *)
Record Injected := {
  res_locals_locale : value;
  req_tr : value;
  req___ : value;
  req_trn : value;
  req__n : value;
  res_render : value -> value -> value -> Outcome RenderCall
}.

(** The continuation the handler gives to the negotiation middleware (lines
    70-103), for a request whose negotiated language ([req.locale]) is
    [language] and a response whose [render] is [originalRender]. *)
Definition continuation (env : Env) (v : Variant) (language originalRender : value)
    (s : State) : State * Outcome Injected :=
  let '(locale, s) := getLocaleForLanguage env v language s in
  match get_prop_checked env locale "__" with
  | Threw e => (s, Threw e)
  | Returned tr =>
      (s, Returned {| res_locals_locale := locale;
                      req_tr := tr;
                      req___ := get_prop env locale "__";
                      req_trn := get_prop env locale "_n";
                      req__n := get_prop env locale "_n";
                      res_render := render env originalRender locale |})
  end.

(** The expression the handler calls first. *)
Definition middlewareLocale_expression (v : Variant) : string :=
  match v with
  | Singleton => "middlewareLocale"
  | ClassBased => "that.middlewareLocale"
  end.

(** The handler the factory returns (lines 67-104), run for such a request.
    It calls what the variable [middlewareLocale] holds at that moment: the
    negotiation middleware, which sets [req.locale] and calls the
    continuation, or [null] once configure has run again, on which the call
    throws. *)
Definition handler (env : Env) (v : Variant) (language originalRender : value)
    (s : State) : State * Outcome Injected :=
  match middlewareLocale s with
  | Some _ => continuation env v language originalRender s
  | None =>
      (s, Threw (VError "TypeError" (not_callable env (middlewareLocale_expression v))))
  end.

(** ** Histories *)

Inductive Event :=
| EConfigure (options : Options)
    (* [i18n.configure(options)]; for the class, [new I18n(options)] *)
| EInitialize (callback : value)
| EParsed (i : nat) (r : ParseResult)
    (* the [i]-th pending [po2json.parseFile] calls back with [r] *)
| EGetLocale (code : value)
| EMiddleware
| ERequest (language originalRender : value).
    (* the handler runs for a request negotiated to [language], on a response
       whose [render] is [originalRender] *)

(** Removing the [i]-th element. *)
Definition remove_nth {A} (i : nat) (l : list A) : list A :=
  take i l ++ drop (S i) l.

(** One event.  The singleton has one set of variables, which configure
    assigns anew; constructing another instance of the class leaves the
    instance followed here as it is. *)
Definition step (env : Env) (v : Variant) (s : State) (e : Event) : State :=
  match e with
  | EConfigure options =>
      match v with
      | Singleton => configure env options s
      | ClassBased => s
      end
  | EInitialize callback => initialize env callback s
  | EParsed i r =>
      match pending s !! i with
      | Some p => parsed env p r (set_pending (remove_nth i (pending s)) s)
      | None => s
      end
  | EGetLocale code => (getLocaleForLanguage env v code s).2
  | EMiddleware => middleware s
  | ERequest language originalRender => (handler env v language originalRender s).1
  end.

(** The state after configuring (or constructing) with [options] and then
    going through [events]. *)
Definition run (env : Env) (v : Variant) (options : Options) (events : list Event)
  : State :=
  foldl (step env v) (configure env options fresh) events.

(** The module variables proper, without the run-time around them. *)
Definition config_of (s : State) :=
  (defaultLocale s, languages s, languageCodes s, pathToTranslations s,
   loadedLanguages s, middlewareLocale s,
   (logDebugFn s, logInfoFn s, logWarnFn s, logErrorFn s)).

(** ** Observing a history *)

Definition is_configure (e : Event) : bool :=
  match e with EConfigure _ => true | _ => false end.

Definition is_initialize (e : Event) : bool :=
  match e with EInitialize _ => true | _ => false end.

(** Whether every configure of a history happens while no load is pending,
    starting from [s]. *)
Fixpoint calm (env : Env) (v : Variant) (s : State) (events : list Event) : bool :=
  match events with
  | [] => true
  | e :: rest =>
      (if is_configure e then bool_decide (pending s = []) else true)
      && calm env v (step env v s e) rest
  end.

(** The locale object built by the first parse that succeeds in a history
    starting from [s]. *)
Fixpoint first_created (env : Env) (v : Variant) (s : State) (events : list Event)
  : option value :=
  match events with
  | [] => None
  | e :: rest =>
      match e with
      | EParsed i (ParseOk data) =>
          match pending s !! i with
          | Some p => Some (VLocale (p_code p) (p_plurals p) data)
          | None => first_created env v (step env v s e) rest
          end
      | _ => first_created env v (step env v s e) rest
      end
  end.

(** The items of a join that have called [done], oldest first, each with the
    error it passed. *)
Fixpoint resolutions (join : nat) (t : list Effect) : list (string * value) :=
  match t with
  | [] => []
  | Resolved j code err :: t' =>
      if (j =? join)%nat then (code, err) :: resolutions join t' else resolutions join t'
  | _ :: t' => resolutions join t'
  end.

(** The arguments with which the callback of a join was invoked. *)
Fixpoint invocations (join : nat) (t : list Effect) : list value :=
  match t with
  | [] => []
  | Invoke j _ err :: t' =>
      if (j =? join)%nat then err :: invocations join t' else invocations join t'
  | _ :: t' => invocations join t'
  end.

(** The errors among resolutions, and the codes that resolved without one. *)
Definition failures (rs : list (string * value)) : list value :=
  filter (fun err => truthy err = true) rs.*2.

Definition successes (rs : list (string * value)) : list string :=
  (filter (fun r => truthy r.2 = false) rs).*1.

(** What the callback of a join must have received so far, given the
    resolutions so far: the first error as soon as there is one; nothing
    while items are outstanding; no error once all [total] items resolved. *)
Definition expected_invocations (callback : value) (total : nat)
    (rs : list (string * value)) : list value :=
  if is_function callback then
    match failures rs with
    | err :: _ => [err]
    | [] => if (total <=? length rs)%nat then [VNull] else []
    end
  else [].

(** Every entry of a map of loaded languages is the locale object built for
    its key. *)
Definition locales_only (m : gmap string value) : Prop :=
  forall code l, m !! code = Some l -> exists plurals data, l = VLocale code plurals data.

(** Every loaded language, and every language being loaded, is a key of
    the registry. *)
Definition registered (s : State) : Prop :=
  (forall code, is_Some (loadedLanguages s !! code) -> code ∈ languageCodes s)
  /\ (forall p, p ∈ pending s -> p_code p ∈ languageCodes s).

(** The bookkeeping of the first join agrees with the trace: it counts the
    items that resolved without an error, it is live while none resolved with
    one, its callback received what it must have received so far, and every
    pending load belongs to it. *)
Definition join_tracks (callback : value) (total : nat) (s : State) : Prop :=
  let rs := resolutions 0 (trace s) in
  joins s = [{| j_total := total; j_completed := length (successes rs);
                j_live := bool_decide (failures rs = []); j_callback := callback |}]
  /\ invocations 0 (trace s) = expected_invocations callback total rs
  /\ (forall p, p ∈ pending s -> p_join p = 0%nat).

(** The loaded languages are the codes that resolved without an error. *)
Definition loaded_tracks (s : State) : Prop :=
  forall code, is_Some (loadedLanguages s !! code)
               <-> code ∈ successes (resolutions 0 (trace s)).

(** Every code of [codes] is accounted for: its parse is pending or it has
    resolved. *)
Definition accounted (codes : list string) (s : State) : Prop :=
  (p_code <$> pending s) ++ (resolutions 0 (trace s)).*1 ≡ₚ codes.

(** ** A small installation, for the examples *)

(** A formatter in the manner of [Jed.sprintf], for the directives [%s] and
    [%d] only: [%d] insists on a number and throws a string otherwise. *)
Fixpoint demo_sprintf (num : float -> string) (fmt : string) (args : list value)
  : Outcome string :=
  match fmt with
  | EmptyString => Returned EmptyString
  | String "%"%char (String "d"%char rest) =>
      match args with
      | VNum x :: args' =>
          match demo_sprintf num rest args' with
          | Returned out => Returned (num x ++ out)
          | Threw e => Threw e
          end
      | VStr _ :: _ => Threw (VStr "[sprintf] expecting number but found string")
      | _ => Threw (VStr "[sprintf] expecting number but found undefined")
      end
  | String "%"%char (String "s"%char rest) =>
      match demo_sprintf num rest (tail args) with
      | Returned out =>
          Returned (match args with VStr a :: _ => a | _ => "undefined" end ++ out)
      | Threw e => Threw e
      end
  | String c rest =>
      match demo_sprintf num rest args with
      | Returned out => Returned (String c out)
      | Threw e => Threw e
      end
  end.

Definition demo_number (x : float) : string :=
  if PrimFloat.eqb x 1%float then "1"
  else if PrimFloat.eqb x 5%float then "5"
  else "0".

(** Jed over a catalog that has no entry for the key: the key itself (the
    plural key unless the number is 1), formatted when arguments are given. *)
Definition demo_fetch (locale key : value) (plural : option (value * value))
    (args : list value) : Outcome value :=
  let text :=
    match plural with
    | Some (number, pkey) => if is_one number then key else pkey
    | None => key
    end in
  match text, args with
  | VStr fmt, _ :: _ =>
      match demo_sprintf demo_number fmt args with
      | Returned out => Returned (VStr out)
      | Threw e => Threw e
      end
  | _, _ => Returned text
  end.

Definition demo_env : Env :=
  {| cwd := "/srv/app";
     path_join := fun a b => a ++ "/" ++ b;
     existsSync := fun file =>
       String.eqb file "/srv/app/i18n/de/LC_MESSAGES/messages.po"
       || String.eqb file "/srv/app/i18n/fr/LC_MESSAGES/messages.po";
     jed_fetch := demo_fetch;
     vsprintf := fun fmt args =>
       match fmt with
       | VStr f =>
           match demo_sprintf demo_number f args with
           | Returned out => Returned (VStr out)
           | Threw e => Threw e
           end
       | _ => Threw (VError "TypeError" "format is not a string")
       end;
     number_to_string := demo_number;
     function_to_string := fun _ => "function () {}";
     jed_get := fun _ _ => VUndefined;
     enumerable := fun _ => ∅;
     cannot_read := fun v k =>
       "Cannot read properties of " ++ (if is_undefined v then "undefined" else "null")
       ++ " (reading '" ++ k ++ "')";
     not_callable := fun e => e ++ " is not a function" |}.

Definition lang (name plurals : string) : value :=
  VObject (<["plurals" := VStr plurals]> (<["name" := VStr name]> ∅)).

Definition german : value := lang "Deutsch" "nplurals=2; plural=(n != 1);".
Definition french : value := lang "Francais" "nplurals=2; plural=(n > 1);".
(** An entry without a plural rule. *)
Definition broken : value := VObject (<["name" := VStr "Broken"]> ∅).

(** Options that set nothing but the registry and, where given, the default
    locale. *)
Definition demo_options (dflt : value) (langs : list (string * value)) : Options :=
  {| opt_defaultLocale := dflt; opt_languages := Some langs;
     opt_pathToTranslations := VUndefined;
     opt_logDebugFn := VUndefined; opt_logInfoFn := VUndefined;
     opt_logWarnFn := VUndefined; opt_logErrorFn := VUndefined |}.

(** Options with no registry and all four log callbacks supplied. *)
Definition bare_options : Options :=
  {| opt_defaultLocale := VUndefined; opt_languages := None;
     opt_pathToTranslations := VUndefined;
     opt_logDebugFn := VFunction 1; opt_logInfoFn := VFunction 2;
     opt_logWarnFn := VFunction 3; opt_logErrorFn := VFunction 4 |}.

(** A registry with German only, and the history in which it loads. *)
Definition german_only : Options := demo_options VUndefined [("de", german)].
Definition german_loads : list Event :=
  [EInitialize (VFunction 9); EParsed 0 (ParseOk [("Hello", ["Hallo"])])].

(** The same registry with the empty string as the default locale. *)
Definition empty_default : Options := demo_options (VStr EmptyString) [("de", german)].

(** The singleton configured anew, for French only, while the German
    catalog is still being parsed. *)
Definition french_only : Options := demo_options VUndefined [("fr", french)].
Definition reconfigured : list Event :=
  [EInitialize (VFunction 9); EConfigure french_only;
   EParsed 0 (ParseOk [("Hello", ["Hallo"])])].

(** The singleton configured anew once the German catalog is loaded. *)
Definition reconfigured_later : list Event :=
  [EInitialize (VFunction 9); EParsed 0 (ParseOk [("Hello", ["Hallo"])]);
   EConfigure french_only; EInitialize (VFunction 9)].

(** A registry in which German is followed by an entry without a plural
    rule. *)
Definition german_and_broken : Options :=
  demo_options VUndefined [("de", german); ("xx", broken)].


Definition demo_data : PoData := [("Hello", ["Hallo"])].
Definition demo_locale : value := VLocale "de" german demo_data.

(** ** Further observers *)


(** The catalog file of a language code (lines 116 and 420). *)
Definition catalog_file (env : Env) (s : State) (code : string) : string :=
  path_join env (pathToTranslations s) (code ++ "/LC_MESSAGES/messages.po").

(** Whether the registry entry of [code] has a name and a plural rule (lines
    114 and 418). *)
Definition has_plurals (env : Env) (s : State) (code : string) : bool :=
  let info := registry_get (languages s) code in
  truthy info && truthy (get_prop env info "name")
  && truthy (get_prop env info "plurals").

(** Whether initialize starts a parse for [code]. *)
Definition loadable (env : Env) (s : State) (code : string) : bool :=
  has_plurals env s code && existsSync env (catalog_file env s code).

(** The load initialize starts for a loadable code, and the error it reports
    at once for any other. *)
Definition new_load (env : Env) (s : State) (join : nat) (code : string) : PendingLoad :=
  {| p_code := code; p_plurals := registry_get (languages s) code;
     p_file := catalog_file env s code; p_join := join |}.

Definition item_error (env : Env) (s : State) (code : string) : value :=
  if has_plurals env s code
  then VStr ("Could not locate language file " ++ catalog_file env s code)
  else VStr ("No plural information for " ++ code).

(** The sinks of the log calls of a trace, oldest first. *)
Fixpoint log_sinks (t : list Effect) : list LogFn :=
  match t with
  | [] => []
  | Log fn _ :: t' => fn :: log_sinks t'
  | _ :: t' => log_sinks t'
  end.

(** The number of pending loads of a join. *)
Definition pending_for (join : nat) (ps : list PendingLoad) : nat :=
  length (filter (fun p => p_join p = join) ps).


(** The sink of that message. *)
Definition fallback_sink (v : Variant) (s : State) : LogFn :=
  match v with Singleton => logInfoFn s | ClassBased => logDebugFn s end.



(** Every loaded locale, and every load under way, carries the whole registry
    entry of its code as its plural forms, and that entry has a name and a
    plural rule. *)
Definition from_registry (env : Env) (s : State) : Prop :=
  (forall code l,
      loadedLanguages s !! code = Some l ->
      has_plurals env s code = true
      /\ exists data, l = VLocale code (registry_get (languages s) code) data)
  /\ (forall p,
        p ∈ pending s ->
        has_plurals env s (p_code p) = true
        /\ p_plurals p = registry_get (languages s) (p_code p)).

(** The callback of a join has been invoked at most once; while the join is
    live, its pending loads, the items it counted and [slack] further items
    fit into its total, and its callback has been invoked only if it counted
    them all.  A join that does not exist has no pending load and no
    invocation. *)
Definition join_budget (slack : nat) (s : State) (join : nat) : Prop :=
  match joins s !! join with
  | Some j =>
      (length (invocations join (trace s)) <= 1)%nat
      /\ (j_live j = true ->
          (pending_for join (pending s) + j_completed j + slack <= j_total j)%nat
          /\ (invocations join (trace s) <> [] -> (j_total j <= j_completed j)%nat))
  | None => pending_for join (pending s) = 0%nat /\ invocations join (trace s) = []
  end.

(** * Properties *)

Open Scope list_scope.

(** ** Argument lists *)

Section Arguments.

Implicit Types (arguments args middle : list value) (x first last : value).

Lemma compact_cons_falsy x args :
  truthy x = false -> compact (x :: args) = compact args.
Proof.
  intros Hx. unfold compact. rewrite filter_cons.
  destruct (decide (truthy x = true)) as [Ht|_]; [congruence | done].
Qed.

Lemma compact_snoc_falsy x args :
  truthy x = false -> compact (args ++ [x]) = compact args.
Proof.
  intros Hx. unfold compact. rewrite filter_app, filter_cons.
  destruct (decide (truthy x = true)) as [Ht|_]; [congruence |].
  by rewrite filter_nil, app_nil_r.
Qed.

Lemma compact_truthy x args : x ∈ compact args -> truthy x = true.
Proof. unfold compact. by intros [? _]%list_elem_of_filter. Qed.

Lemma insert_last_slot x y args :
  <[length args := x]> (args ++ [y]) = args ++ [x].
Proof. induction args as [|a args IH]; simpl; [done | by f_equal]. Qed.

(** Nulling the first and the last slot of a list of two or more. *)
Lemma tr_args_shape first middle last :
  tr_args (first :: middle ++ [last]) = compact middle.
Proof.
  unfold tr_args.
  replace (2 <=? length (first :: middle ++ [last]))%nat with true
    by (symmetry; apply Nat.leb_le; rewrite length_cons, length_app; simpl; lia).
  change (<[0:=VNull]> (first :: middle ++ [last])) with (VNull :: middle ++ [last]).
  replace (length (VNull :: middle ++ [last]) - 1)%nat with (S (length middle))
    by (rewrite length_cons, length_app; simpl; lia).
  change (<[S (length middle):=VNull]> (VNull :: middle ++ [last]))
    with (VNull :: <[length middle:=VNull]> (middle ++ [last])).
  rewrite insert_last_slot, compact_cons_falsy by done.
  by rewrite compact_snoc_falsy.
Qed.

Lemma trn_args_shape first second x middle last :
  trn_args (first :: second :: x :: middle ++ [last]) = compact (x :: middle).
Proof.
  unfold trn_args.
  replace (4 <=? length (first :: second :: x :: middle ++ [last]))%nat with true
    by (symmetry; apply Nat.leb_le; rewrite !length_cons, length_app; simpl; lia).
  change (<[1:=VNull]> (<[0:=VNull]> (first :: second :: x :: middle ++ [last])))
    with (VNull :: VNull :: (x :: middle) ++ [last]).
  replace (length (VNull :: VNull :: (x :: middle) ++ [last]) - 1)%nat
    with (S (S (length (x :: middle))))
    by (rewrite !length_cons, length_app, length_cons; simpl; lia).
  change (<[S (S (length (x :: middle))):=VNull]> (VNull :: VNull :: (x :: middle) ++ [last]))
    with (VNull :: VNull :: <[length (x :: middle):=VNull]> ((x :: middle) ++ [last])).
  rewrite insert_last_slot, !compact_cons_falsy by done.
  by rewrite compact_snoc_falsy.
Qed.

(** A list of [n + 1] or more elements splits into its first [n], a middle
    part and its last element. *)
Lemma split_last args :
  (1 <= length args)%nat ->
  args = take (length args - 1) args ++ [List.last args VUndefined].
Proof.
  induction args as [|a args IH] using rev_ind; simpl; [lia | intros _].
  rewrite length_app. simpl.
  replace (length args + 1 - 1)%nat with (length args) by lia.
  rewrite take_app_length. by rewrite last_last.
Qed.

Lemma tr_args_inner arguments :
  (2 <= length arguments)%nat ->
  tr_args arguments
  = compact (drop 1 (take (length arguments - 1) arguments)).
Proof.
  intros Hlen. destruct arguments as [|first rest]; [simpl in Hlen; lia|].
  assert (1 <= length rest)%nat as Hrest by (simpl in Hlen; lia).
  rewrite (split_last rest Hrest) at 1. rewrite tr_args_shape.
  f_equal. simpl length.
  replace (S (length rest) - 1)%nat with (S (length rest - 1)) by lia.
  done.
Qed.

Lemma trn_args_inner arguments :
  (4 <= length arguments)%nat ->
  trn_args arguments
  = compact (drop 2 (take (length arguments - 1) arguments)).
Proof.
  intros Hlen.
  destruct arguments as [|first [|second [|x rest]]]; try (simpl in Hlen; lia).
  assert (1 <= length rest)%nat as Hrest by (simpl in Hlen; lia).
  rewrite (split_last rest Hrest) at 1. rewrite trn_args_shape.
  f_equal. simpl length.
  replace (S (S (S (length rest))) - 1)%nat with (S (S (S (length rest - 1)))) by lia.
  done.
Qed.

Lemma tr_args_few arguments :
  (length arguments < 2)%nat -> tr_args arguments = arguments.
Proof.
  intros Hlen. unfold tr_args.
  by replace (2 <=? length arguments)%nat with false
    by (symmetry; apply Nat.leb_gt; lia).
Qed.

Lemma trn_args_few arguments :
  (length arguments < 4)%nat -> trn_args arguments = arguments.
Proof.
  intros Hlen. unfold trn_args.
  by replace (4 <=? length arguments)%nat with false
    by (symmetry; apply Nat.leb_gt; lia).
Qed.

End Arguments.

(** C5.  With two or more arguments [locale.__] hands the formatter the
    arguments strictly between the first and the last that are truthy, each
    of them and in their order; with four or more [locale._n] hands it those
    strictly between the second and the last that are truthy; with fewer each
    hands it the argument list as it came.  The formatter is Jed's [fetch] on
    a truthy locale and [vsprintf] otherwise. *)
Theorem helper_arguments_slots (env : Env) (v : Variant) (locale : value)
    (arguments : list value) (s : State) :
  let n := length arguments in
  let inner k := drop k (take (n - 1) arguments) in
  let passed :=
    if (2 <=? n)%nat then filter (fun x => truthy x = true) (inner 1%nat)
    else arguments in
  let passedN :=
    if (4 <=? n)%nat then filter (fun x => truthy x = true) (inner 2%nat)
    else arguments in
  tr env v locale arguments s
  = (if truthy locale
     then (s, jed_fetch env locale (nth_arg arguments 0) None passed)
     else format_or_text env v (nth_arg arguments 0) passed s)
  /\ trn env v locale arguments s
     = (if truthy locale
        then (s, jed_fetch env locale (nth_arg arguments 0)
                   (Some (nth_arg arguments 2, nth_arg arguments 1)) passedN)
        else format_or_text env v
               (if is_one (nth_arg arguments 2)
                then nth_arg arguments 0 else nth_arg arguments 1)
               passedN s)
  /\ (forall x, (2 <= n)%nat ->
        (x ∈ passed <-> x ∈ inner 1%nat /\ truthy x = true))
  /\ (forall x, (4 <= n)%nat ->
        (x ∈ passedN <-> x ∈ inner 2%nat /\ truthy x = true))
  /\ tr_args [VStr "%s and %d"; VStr "a"; VNum 5; VObject ∅] = [VStr "a"; VNum 5]
  /\ trn_args [VStr "%d item"; VStr "%d items"; VNum 5; VStr "a"; VBool true; VObject ∅]
     = [VNum 5; VStr "a"; VBool true].
Proof.
  intros n inner passed passedN.
  assert (tr_args arguments = passed) as Htr.
  { subst passed inner n. destruct (2 <=? length arguments)%nat eqn:Hlen.
    - apply tr_args_inner. by apply Nat.leb_le.
    - apply tr_args_few. by apply Nat.leb_gt. }
  assert (trn_args arguments = passedN) as Htrn.
  { subst passedN inner n. destruct (4 <=? length arguments)%nat eqn:Hlen.
    - apply trn_args_inner. by apply Nat.leb_le.
    - apply trn_args_few. by apply Nat.leb_gt. }
  split_and!.
  - unfold tr. by rewrite Htr.
  - unfold trn. rewrite Htrn. destruct (truthy locale); [done|].
    by destruct (is_one (nth_arg arguments 2)).
  - intros x Hn. subst passed. apply Nat.leb_le in Hn. rewrite Hn.
    rewrite list_elem_of_filter. tauto.
  - intros x Hn. subst passedN. apply Nat.leb_le in Hn. rewrite Hn.
    rewrite list_elem_of_filter. tauto.
  - reflexivity.
  - reflexivity.
Qed.

(** C9.  In those regimes nothing falsy reaches the formatter, whoever put it
    in the list: a substitution value such as [0], the empty string or
    [false] is dropped along with the nulled slots. *)
Theorem falsy_arguments_dropped (arguments : list value) (x : value) :
  truthy x = false ->
  ((2 <= length arguments)%nat -> x ∉ tr_args arguments)
  /\ ((4 <= length arguments)%nat -> x ∉ trn_args arguments).
Proof.
  intros Hx. split; intros Hlen Hin.
  - rewrite tr_args_inner in Hin by done.
    apply compact_truthy in Hin. congruence.
  - rewrite trn_args_inner in Hin by done.
    apply compact_truthy in Hin. congruence.
Qed.

Lemma falsy_arguments_dropped_witness :
  (tr_args [VStr "%d of %s"; VNum 0; VStr EmptyString; VBool false; VObject ∅] = [])
  /\ (VNum 0 ∉ tr_args [VStr "%d items"; VNum 0; VObject ∅])
  /\ (VNum 0 ∉ trn_args [VStr "%d item"; VStr "%d items"; VNum 0; VObject ∅]).
Proof.
  split; [reflexivity|].
  split.
  - apply (falsy_arguments_dropped [VStr "%d items"; VNum 0; VObject ∅] (VNum 0));
      [reflexivity | simpl; lia].
  - apply (falsy_arguments_dropped
             [VStr "%d item"; VStr "%d items"; VNum 0; VObject ∅] (VNum 0));
      [reflexivity | simpl; lia].
Defined.

(** ** Frame properties: what each operation leaves alone *)

Section Frames.

Context (env : Env) (v : Variant).

Lemma config_of_emit e s : config_of (emit e s) = config_of s.
Proof. done. Qed.

Lemma config_of_set_pending p s : config_of (set_pending p s) = config_of s.
Proof. done. Qed.

Lemma config_of_set_joins js s : config_of (set_joins js s) = config_of s.
Proof. done. Qed.

Lemma config_of_finished join callback err s :
  config_of (finished env join callback err s) = config_of s.
Proof. unfold finished. by destruct (truthy err), (is_function callback). Qed.

Lemma config_of_done join code err s :
  config_of (done env join code err s) = config_of s.
Proof.
  unfold done. cbn [joins emit].
  destruct (joins s !! join) as [j|]; [|done].
  destruct (truthy err).
  - destruct (j_live j); [by rewrite config_of_finished | done].
  - destruct (_ && _); [by rewrite config_of_finished | done].
Qed.

Lemma config_of_load_item join s code :
  config_of (load_item env join s code) = config_of s.
Proof.
  unfold load_item.
  destruct (_ && _); [|apply config_of_done].
  destruct (existsSync env _); [done | apply config_of_done].
Qed.

Lemma config_of_load_items join codes s :
  config_of (foldl (load_item env join) s codes) = config_of s.
Proof.
  revert s. induction codes as [|code codes IH]; intros s; [done|].
  simpl. by rewrite IH, config_of_load_item.
Qed.

Lemma config_of_initialize callback s :
  config_of (initialize env callback s) = config_of s.
Proof.
  unfold initialize. destruct (_ =? _)%nat.
  - by rewrite config_of_finished.
  - by rewrite config_of_load_items.
Qed.

Lemma getLocaleForLanguage_state code s :
  config_of (getLocaleForLanguage env v code s).2 = config_of s
  /\ pending (getLocaleForLanguage env v code s).2 = pending s
  /\ joins (getLocaleForLanguage env v code s).2 = joins s.
Proof.
  unfold getLocaleForLanguage.
  destruct (truthy code && _); simpl.
  - destruct (truthy (js_get _ _)); simpl; [done|]. by destruct v.
  - by destruct v.
Qed.

Lemma continuation_state language originalRender s :
  (continuation env v language originalRender s).1
  = (getLocaleForLanguage env v language s).2.
Proof.
  unfold continuation. destruct (getLocaleForLanguage env v language s) as [locale s'].
  by destruct (get_prop_checked env locale "__").
Qed.

Lemma handler_state language originalRender s :
  (handler env v language originalRender s).1
  = match middlewareLocale s with
    | Some _ => (getLocaleForLanguage env v language s).2
    | None => s
    end.
Proof.
  unfold handler. destruct (middlewareLocale s); [apply continuation_state | done].
Qed.

Lemma loadedLanguages_config s s' :
  config_of s = config_of s' -> loadedLanguages s = loadedLanguages s'.
Proof. unfold config_of. congruence. Qed.

Lemma languageCodes_config s s' :
  config_of s = config_of s' -> languageCodes s = languageCodes s'.
Proof. unfold config_of. congruence. Qed.

Lemma defaultLocale_config s s' :
  config_of s = config_of s' -> defaultLocale s = defaultLocale s'.
Proof. unfold config_of. congruence. Qed.

End Frames.

(** ** Format failures on a loaded locale *)

(** C3.  On a loaded locale both helpers return what Jed's [fetch] returns
    and throw what it throws: the call is outside any [try], so a format
    failure inside [fetch] reaches the caller instead of yielding the text. *)
Theorem format_failure_reaches_caller (env : Env) (v : Variant) (code : string)
    (plurals : value) (data : PoData) (arguments : list value) (s : State)
    (e1 e2 : value) :
  let locale := VLocale code plurals data in
  jed_fetch env locale (nth_arg arguments 0) None (tr_args arguments) = Threw e1 ->
  jed_fetch env locale (nth_arg arguments 0)
    (Some (nth_arg arguments 2, nth_arg arguments 1)) (trn_args arguments)
  = Threw e2 ->
  tr env v locale arguments s = (s, Threw e1)
  /\ trn env v locale arguments s = (s, Threw e2).
Proof.
  intros locale H1 H2. unfold tr, trn. simpl truthy. cbv iota.
  by rewrite H1, H2.
Qed.

Lemma format_failure_reaches_caller_witness :
  tr demo_env Singleton demo_locale
    [VStr "%d item"; VStr "%d items"; VNum 5] fresh
  = (fresh, Threw (VStr "[sprintf] expecting number but found string"))
  /\ trn demo_env Singleton demo_locale
       [VStr "%d item"; VStr "%d items"; VNum 5] fresh
     = (fresh, Threw (VStr "[sprintf] expecting number but found string")).
Proof.
  apply (format_failure_reaches_caller demo_env Singleton "de" german demo_data
           [VStr "%d item"; VStr "%d items"; VNum 5] fresh);
    reflexivity.
Defined.

(** ** configure *)

(** C8 does not hold as stated: with an empty registry and all four log
    callbacks supplied, the one message configure emits goes to the error
    callback (function 4), and the warn callback (function 3) is not called. *)
Lemma empty_registry_message_goes_to_error_callback :
  trace (configure demo_env bare_options fresh)
  = [Log (CustomLogger (VFunction 4)) [VStr "No languages defined, nothing to handle"]]
  /\ logWarnFn (configure demo_env bare_options fresh) = CustomLogger (VFunction 3)
  /\ logErrorFn (configure demo_env bare_options fresh) = CustomLogger (VFunction 4).
Proof. by split_and!. Qed.

(** C8, amended.  Configuration with an empty registry emits one message
    through the configured error callback (the 'i18n:error' logger when none
    is configured) and completes: the registry and the loaded languages are
    empty, and the default locale and the catalog directory fall back to
    "en" and [<cwd>/i18n] when the options give no string for them. *)
Theorem configure_empty_registry (env : Env) (options : Options) (s : State) :
  default [] (opt_languages options) = [] ->
  let s' := configure env options s in
  trace s' = trace s ++ [Log (logErrorFn s') [VStr "No languages defined, nothing to handle"]]
  /\ logErrorFn s' = logger_or (opt_logErrorFn options) "i18n:error"
  /\ languageCodes s' = [] /\ loadedLanguages s' = ∅
  /\ defaultLocale s'
     = (if is_string (opt_defaultLocale options) then opt_defaultLocale options
        else VStr "en")
  /\ VStr (pathToTranslations s')
     = (if is_string (opt_pathToTranslations options) then opt_pathToTranslations options
        else VStr (path_join env (cwd env) "i18n")).
Proof.
  intros Hempty s'. subst s'. unfold configure. rewrite Hempty. simpl.
  split_and!; try done.
  - by destruct (opt_defaultLocale options).
  - by destruct (opt_pathToTranslations options).
Qed.

Lemma configure_empty_registry_witness :
  trace (configure demo_env bare_options fresh)
  = [Log (CustomLogger (VFunction 4)) [VStr "No languages defined, nothing to handle"]]
  /\ defaultLocale (configure demo_env bare_options fresh) = VStr "en"
  /\ pathToTranslations (configure demo_env bare_options fresh) = "/srv/app/i18n"%string.
Proof.
  destruct (configure_empty_registry demo_env bare_options fresh eq_refl)
    as (Ht & _ & _ & _ & Hd & Hp).
  split_and!; [exact Ht | exact Hd | reflexivity].
Defined.

(** ** Loaded languages hold locale objects *)

Section Loaded.

Context (env : Env) (v : Variant).

Lemma locales_only_insert m code plurals data :
  locales_only m -> locales_only (<[code := VLocale code plurals data]> m).
Proof.
  intros Hm code' l. rewrite lookup_insert. case_decide as Hc.
  - intros [= <-]. subst. eauto.
  - apply Hm.
Qed.

Lemma loadedLanguages_parsed p r s :
  loadedLanguages (parsed env p r s)
  = match r with
    | ParseOk data => <[p_code p := VLocale (p_code p) (p_plurals p) data]> (loadedLanguages s)
    | ParseErr _ => loadedLanguages s
    end.
Proof.
  unfold parsed. destruct r as [data|err].
  - simpl truthy. cbv iota.
    erewrite loadedLanguages_config by apply config_of_done.
    by destruct (negb (truthy (defaultLocale _))).
  - by erewrite loadedLanguages_config by apply config_of_done.
Qed.

Lemma loadedLanguages_configure options s :
  loadedLanguages (configure env options s) = ∅.
Proof. unfold configure. by destruct (_ =? _)%nat. Qed.

Lemma step_locales_only s e :
  locales_only (loadedLanguages s) -> locales_only (loadedLanguages (step env v s e)).
Proof.
  intros Hs. destruct e as [options|callback|i r|code| |language original]; simpl.
  - destruct v; [|done]. rewrite loadedLanguages_configure. by intros ? ? ?.
  - by erewrite loadedLanguages_config by apply config_of_initialize.
  - destruct (pending s !! i) as [p|]; [|done].
    rewrite loadedLanguages_parsed. destruct r; [|done].
    by apply locales_only_insert.
  - by erewrite loadedLanguages_config by apply getLocaleForLanguage_state.
  - unfold middleware. by destruct (middlewareLocale s).
  - rewrite handler_state. destruct (middlewareLocale s) eqn:Hmw; [|done].
    by erewrite loadedLanguages_config by apply getLocaleForLanguage_state.
Qed.

Lemma steps_locales_only events s :
  locales_only (loadedLanguages s) ->
  locales_only (loadedLanguages (foldl (step env v) s events)).
Proof.
  revert s. induction events as [|e events IH]; intros s Hs; [done|].
  simpl. by apply IH, step_locales_only.
Qed.

Lemma run_locales_only options events :
  locales_only (loadedLanguages (run env v options events)).
Proof.
  apply steps_locales_only. rewrite loadedLanguages_configure. by intros ? ? ?.
Qed.

End Loaded.

(** ** getLocaleForLanguage *)

Lemma inherited_shape (k : string) :
  inherited k = VUndefined
  \/ (exists name, inherited k = VBuiltin name)
  \/ inherited k = VObject ∅.
Proof.
  unfold inherited, object_prototype, assoc.
  repeat (destruct (String.eqb _ k); [by eauto|]). by left.
Qed.

Lemma inherited_truthy (k : string) :
  truthy (inherited k) = false <-> inherited k = VUndefined.
Proof.
  destruct (inherited_shape k) as [->|[[name ->]| ->]]; by split.
Qed.



(** ** The branch without a catalog *)

(** C10.  The helpers attached to a loaded locale close over that locale
    object, which is truthy: a call of either is the call of Jed's [fetch]
    and nothing else, so the branch that formats with [vsprintf], and with it
    the [catch] handler that names [Logger], is never entered. *)
Theorem helpers_never_fall_back (env : Env) (v : Variant) (options : Options)
    (events : list Event) (code : string) (l : value) :
  loadedLanguages (run env v options events) !! code = Some l ->
  forall (arguments : list value) (s : State),
    call env v (get_prop env l "__") arguments s
    = Some (s, jed_fetch env l (nth_arg arguments 0) None (tr_args arguments))
    /\ call env v (get_prop env l "_n") arguments s
       = Some (s, jed_fetch env l (nth_arg arguments 0)
                    (Some (nth_arg arguments 2, nth_arg arguments 1))
                    (trn_args arguments)).
Proof.
  intros Hl arguments s.
  destruct (run_locales_only env v options events _ _ Hl) as (plurals & data & ->).
  done.
Qed.

Lemma helpers_never_fall_back_witness :
  call demo_env Singleton (get_prop demo_env demo_locale "__")
    [VStr "%s items"; VStr "many"; VObject ∅] fresh
  = Some (fresh, Returned (VStr "many items")).
Proof.
  assert (loadedLanguages (run demo_env Singleton german_only german_loads) !! "de"
          = Some demo_locale) as Hl by reflexivity.
  exact (proj1 (helpers_never_fall_back demo_env Singleton german_only german_loads
                  "de" demo_locale Hl [VStr "%s items"; VStr "many"; VObject ∅] fresh)).
Defined.

(** ** The default locale *)

Section DefaultLocale.

Context (env : Env) (v : Variant).

Lemma defaultLocale_configure options s :
  defaultLocale (configure env options s)
  = VStr (string_or (opt_defaultLocale options) "en").
Proof. unfold configure. by destruct (_ =? _)%nat. Qed.

Lemma defaultLocale_parsed p r s :
  defaultLocale (parsed env p r s)
  = match r with
    | ParseOk data =>
        if truthy (defaultLocale s) then defaultLocale s
        else VLocale (p_code p) (p_plurals p) data
    | ParseErr _ => defaultLocale s
    end.
Proof.
  unfold parsed. destruct r as [data|err].
  - simpl truthy. cbv iota.
    erewrite defaultLocale_config by apply config_of_done.
    cbn [defaultLocale emit set_loadedLanguages].
    by destruct (truthy (defaultLocale s)).
  - by erewrite defaultLocale_config by apply config_of_done.
Qed.

(** Anything but configure and a successful parse keeps the default. *)
Lemma defaultLocale_step s e :
  is_configure e = false ->
  defaultLocale (step env v s e)
  = match e with
    | EParsed i (ParseOk data) =>
        match pending s !! i with
        | Some p =>
            if truthy (defaultLocale s) then defaultLocale s
            else VLocale (p_code p) (p_plurals p) data
        | None => defaultLocale s
        end
    | _ => defaultLocale s
    end.
Proof.
  intros He. destruct e as [options|callback|i r|code| |language original]; simpl; try done.
  - by erewrite defaultLocale_config by apply config_of_initialize.
  - destruct (pending s !! i) as [p|]; [|by destruct r].
    rewrite defaultLocale_parsed. by destruct r.
  - by erewrite defaultLocale_config by apply getLocaleForLanguage_state.
  - unfold middleware. by destruct (middlewareLocale s).
  - rewrite handler_state. destruct (middlewareLocale s) eqn:Hmw; [|done].
    by erewrite defaultLocale_config by apply getLocaleForLanguage_state.
Qed.

Lemma defaultLocale_steps events s :
  forallb (fun e => negb (is_configure e)) events = true ->
  defaultLocale (foldl (step env v) s events)
  = if truthy (defaultLocale s) then defaultLocale s
    else default (defaultLocale s) (first_created env v s events).
Proof.
  revert s. induction events as [|e events IH]; intros s Hev.
  - simpl. by destruct (truthy (defaultLocale s)).
  - simpl in Hev. apply andb_true_iff in Hev as [He Hev].
    apply negb_true_iff in He.
    cbn [foldl]. rewrite (IH _ Hev), (defaultLocale_step s e He).
    cbn [first_created].
    destruct e as [options|callback|i r|code| |language original]; try done;
      try (by destruct (truthy (defaultLocale s))).
    destruct r as [data|err]; [|by destruct (truthy (defaultLocale s))].
    destruct (pending s !! i) as [p|]; [|by destruct (truthy (defaultLocale s))].
    by destruct (truthy (defaultLocale s)) eqn:Hd; simpl; rewrite ?Hd.
Qed.

End DefaultLocale.

(** C4 does not hold as stated: configured without a default locale, the
    module takes "en" as its default, and the first locale it loads (German
    here) does not replace it. *)
Lemma unconfigured_default_stays_en :
  opt_defaultLocale german_only = VUndefined
  /\ first_created demo_env Singleton (configure demo_env german_only fresh) german_loads
     = Some demo_locale
  /\ loadedLanguages (run demo_env Singleton german_only german_loads) !! "de"
     = Some demo_locale
  /\ defaultLocale (run demo_env Singleton german_only german_loads) = VStr "en"
  /\ defaultLocale (run demo_env ClassBased german_only german_loads) = VStr "en".
Proof. by split_and!. Qed.

(** C4, amended.  Between two calls of configure the default locale is the
    configured string, "en" when the options give none, and loading never
    changes it; unless that string is empty: then the default is the empty
    string until a locale is loaded and the first locale object created from
    then on. *)
Theorem default_locale_after_loading (env : Env) (v : Variant) (options : Options)
    (events : list Event) :
  forallb (fun e => negb (is_configure e)) events = true ->
  let configured := string_or (opt_defaultLocale options) "en" in
  defaultLocale (run env v options events)
  = if String.eqb configured EmptyString
    then default (VStr EmptyString)
           (first_created env v (configure env options fresh) events)
    else VStr configured.
Proof.
  intros Hev configured. unfold run.
  rewrite (defaultLocale_steps env v events _ Hev), defaultLocale_configure.
  fold configured. simpl truthy.
  destruct (String.eqb_spec configured EmptyString) as [->|Hne]; [done|].
  by destruct configured.
Qed.

Lemma default_locale_after_loading_witness :
  defaultLocale (run demo_env Singleton empty_default german_loads) = demo_locale
  /\ defaultLocale (run demo_env Singleton german_only german_loads) = VStr "en".
Proof.
  split.
  - exact (default_locale_after_loading demo_env Singleton empty_default german_loads
             eq_refl).
  - exact (default_locale_after_loading demo_env Singleton german_only german_loads
             eq_refl).
Defined.

(** ** Loaded languages and the registry *)

Section Registry.

Context (env : Env) (v : Variant).

Lemma pending_finished join callback err s :
  pending (finished env join callback err s) = pending s.
Proof. unfold finished. by destruct (truthy err), (is_function callback). Qed.

Lemma pending_done join code err s :
  pending (done env join code err s) = pending s.
Proof.
  unfold done. cbn [joins emit].
  destruct (joins s !! join) as [j|]; [|done].
  destruct (truthy err).
  - destruct (j_live j); [by rewrite pending_finished | done].
  - destruct (_ && _); [by rewrite pending_finished | done].
Qed.

(** An item either starts a parse or resolves at once with an error. *)
Lemma load_item_cases join s code :
  (exists msg p,
      p_code p = code /\ p_join p = join
      /\ load_item env join s code
         = set_pending (pending s ++ [p]) (emit (Log (logInfoFn s) msg) s))
  \/ (exists err, truthy err = true /\ load_item env join s code = done env join code err s).
Proof.
  unfold load_item. destruct (_ && _).
  - destruct (existsSync env _).
    + left. eexists _, _. refine (conj _ (conj _ eq_refl)); reflexivity.
    + right. eexists. refine (conj _ eq_refl). reflexivity.
  - right. eexists. refine (conj _ eq_refl). reflexivity.
Qed.

Lemma pending_load_items join codes s p :
  p ∈ pending (foldl (load_item env join) s codes) ->
  p ∈ pending s \/ p_code p ∈ codes.
Proof.
  revert s. induction codes as [|code codes IH]; intros s; cbn [foldl]; [by left|].
  intros [Hp|Hp]%IH; [|right; by apply list_elem_of_further].
  destruct (load_item_cases join s code) as [(msg & q & Hq & _ & Heq)|(err & _ & Heq)];
    rewrite Heq in Hp.
  - cbn [pending set_pending] in Hp. apply elem_of_app in Hp as [Hp|Hp]; [by left|].
    apply list_elem_of_singleton in Hp as ->. right. rewrite Hq. apply list_elem_of_here.
  - rewrite pending_done in Hp. by left.
Qed.

Lemma pending_initialize callback s p :
  p ∈ pending (initialize env callback s) ->
  p ∈ pending s \/ p_code p ∈ languageCodes s.
Proof.
  unfold initialize. destruct (_ =? _)%nat.
  - rewrite pending_finished. by left.
  - intros Hp. by apply pending_load_items in Hp.
Qed.

Lemma elem_of_remove_nth {A} (i : nat) (l : list A) (x : A) :
  x ∈ remove_nth i l -> x ∈ l.
Proof.
  unfold remove_nth. intros [Hx|Hx]%elem_of_app.
  - by eapply subseteq_take.
  - by eapply subseteq_drop.
Qed.

Lemma languages_config s s' :
  config_of s = config_of s' -> languages s = languages s'.
Proof. unfold config_of. congruence. Qed.

Lemma configure_codes options s :
  languageCodes (configure env options s) = (languages (configure env options s)).*1.
Proof. unfold configure. by destruct (_ =? _)%nat. Qed.

Lemma registry_parsed p r s :
  languageCodes (parsed env p r s) = languageCodes s
  /\ languages (parsed env p r s) = languages s.
Proof.
  unfold parsed. destruct r; simpl truthy; cbv iota;
    erewrite languageCodes_config, languages_config by apply config_of_done;
    [|done].
  by destruct (negb (truthy _)).
Qed.

Lemma step_registered s e :
  (is_configure e = true -> v = Singleton -> pending s = []) ->
  registered s -> registered (step env v s e).
Proof.
  intros Hcalm [Hloaded Hpending].
  destruct e as [options|callback|i r|code| |language original]; simpl.
  - destruct v; [|done]. specialize (Hcalm eq_refl eq_refl).
    split.
    + intros code. rewrite loadedLanguages_configure, lookup_empty. by intros [? ?].
    + intros p. unfold configure. destruct (_ =? _)%nat; simpl; rewrite Hcalm;
        by intros ?%elem_of_nil.
  - split.
    + intros code.
      erewrite loadedLanguages_config, languageCodes_config
        by apply config_of_initialize. apply Hloaded.
    + intros p Hp. erewrite languageCodes_config by apply config_of_initialize.
      apply pending_initialize in Hp as [Hp|Hp]; [by apply Hpending | done].
  - destruct (pending s !! i) as [p|] eqn:Hp; [|done].
    assert (p_code p ∈ languageCodes s) as Hcode
      by (eapply Hpending, list_elem_of_lookup_2, Hp).
    assert (languageCodes (parsed env p r (set_pending (remove_nth i (pending s)) s))
            = languageCodes s) as Hcodes
      by apply (registry_parsed p r (set_pending (remove_nth i (pending s)) s)).
    split.
    + intros code. rewrite Hcodes, loadedLanguages_parsed.
      destruct r as [data|err]; [|apply Hloaded].
      cbn [loadedLanguages set_pending]. rewrite lookup_insert.
      case_decide as Hc; [by subst | apply Hloaded].
    + intros q. rewrite Hcodes. unfold parsed.
      destruct r; simpl truthy; cbv iota; rewrite pending_done;
        [destruct (negb (truthy _))|]; cbn [pending emit set_defaultLocale
          set_loadedLanguages set_pending];
        intros Hq%elem_of_remove_nth; by apply Hpending.
  - destruct (getLocaleForLanguage_state env v code s) as (Hc & Hp & _).
    split.
    + intros c. erewrite loadedLanguages_config, languageCodes_config by apply Hc.
      apply Hloaded.
    + intros p. rewrite Hp. erewrite languageCodes_config by apply Hc.
      apply Hpending.
  - unfold middleware. by destruct (middlewareLocale s).
  - rewrite handler_state. destruct (middlewareLocale s) eqn:Hmw; [|done].
    destruct (getLocaleForLanguage_state env v language s) as (Hc & Hp & _).
    split.
    + intros c. erewrite loadedLanguages_config, languageCodes_config by apply Hc.
      apply Hloaded.
    + intros p. rewrite Hp. erewrite languageCodes_config by apply Hc.
      apply Hpending.
Qed.

Lemma steps_registered events s :
  (v = Singleton -> calm env v s events = true) ->
  registered s -> registered (foldl (step env v) s events).
Proof.
  revert s. induction events as [|e events IH]; intros s Hcalm Hs; [done|].
  cbn [foldl]. apply IH.
  - intros Hv. specialize (Hcalm Hv). simpl in Hcalm.
    by apply andb_true_iff in Hcalm as [_ ?].
  - apply step_registered; [|done].
    intros He Hv. specialize (Hcalm Hv). simpl in Hcalm.
    apply andb_true_iff in Hcalm as [Hc _]. rewrite He in Hc.
    by apply bool_decide_eq_true in Hc.
Qed.

Lemma configure_registered options :
  registered (configure env options fresh).
Proof.
  split.
  - intros code. rewrite loadedLanguages_configure, lookup_empty. by intros [? ?].
  - intros p. unfold configure. destruct (_ =? _)%nat; simpl; by intros ?%elem_of_nil.
Qed.

Lemma step_codes s e :
  languageCodes s = (languages s).*1 ->
  languageCodes (step env v s e) = (languages (step env v s e)).*1.
Proof.
  intros Hs. destruct e as [options|callback|i r|code| |language original]; simpl.
  - destruct v; [apply configure_codes | done].
  - by erewrite languageCodes_config, languages_config by apply config_of_initialize.
  - destruct (pending s !! i) as [p|]; [|done].
    by destruct (registry_parsed p r (set_pending (remove_nth i (pending s)) s))
      as [-> ->].
  - by erewrite languageCodes_config, languages_config
      by apply getLocaleForLanguage_state.
  - unfold middleware. by destruct (middlewareLocale s).
  - rewrite handler_state. destruct (middlewareLocale s) eqn:Hmw; [|done].
    by erewrite languageCodes_config, languages_config
      by apply getLocaleForLanguage_state.
Qed.

End Registry.

(** C7 does not hold as stated for the singleton: configured for German,
    initialized, and configured anew for French while the German catalog is
    still being parsed, it registers the German locale, when the parse is
    through, in a registry that has no German. *)
Lemma reconfigured_singleton_loads_unregistered :
  languages (run demo_env Singleton german_only reconfigured) = [("fr", french)]
  /\ languageCodes (run demo_env Singleton german_only reconfigured) = ["fr"%string]
  /\ loadedLanguages (run demo_env Singleton german_only reconfigured) !! "de"
     = Some demo_locale.
Proof. by split_and!. Qed.

(** C7, amended.  For the class, and for the singleton as long as configure
    is not called while a catalog is being parsed, every key of the loaded
    languages is a key of the registry after any sequence of operations; and
    in any state getLocaleForLanguage, the middleware factory and the request
    handler leave the loaded languages as they are. *)
Theorem loaded_languages_registered (env : Env) (v : Variant) (options : Options)
    (events : list Event) :
  (v = Singleton -> calm env v (configure env options fresh) events = true) ->
  let s := run env v options events in
  (forall code, is_Some (loadedLanguages s !! code) -> code ∈ (languages s).*1)
  /\ (forall (s' : State) (code language originalRender : value),
        loadedLanguages (step env v s' (EGetLocale code)) = loadedLanguages s'
        /\ loadedLanguages (step env v s' EMiddleware) = loadedLanguages s'
        /\ loadedLanguages (step env v s' (ERequest language originalRender))
           = loadedLanguages s').
Proof.
  intros Hcalm s. split.
  - assert (languageCodes s = (languages s).*1) as <-.
    { subst s. unfold run. generalize (configure_codes env options fresh).
      generalize (configure env options fresh). clear Hcalm.
      induction events as [|e events IH]; intros s0 Hs0; [done|].
      cbn [foldl]. apply IH. by apply (step_codes env v). }
    apply (steps_registered env v events _ Hcalm (configure_registered env options)).
  - intros s' code language originalRender. split_and!; simpl.
    + by erewrite loadedLanguages_config by apply getLocaleForLanguage_state.
    + unfold middleware. by destruct (middlewareLocale s').
    + rewrite handler_state. destruct (middlewareLocale s') eqn:Hmw; [|done].
      by erewrite loadedLanguages_config by apply getLocaleForLanguage_state.
Qed.

Lemma loaded_languages_registered_witness :
  (forall code,
      is_Some (loadedLanguages (run demo_env Singleton german_only reconfigured_later) !! code)
      -> code ∈ (languages (run demo_env Singleton german_only reconfigured_later)).*1)
  /\ (forall code,
        is_Some (loadedLanguages (run demo_env ClassBased german_only reconfigured) !! code)
        -> code ∈ (languages (run demo_env ClassBased german_only reconfigured)).*1).
Proof.
  split.
  - exact (proj1 (loaded_languages_registered demo_env Singleton german_only
                    reconfigured_later (fun _ => eq_refl))).
  - refine (proj1 (loaded_languages_registered demo_env ClassBased german_only
                     reconfigured _)).
    intros Hv. discriminate Hv.
Defined.

(** ** initialize: the join over the language codes *)

Section Observers.

Lemma resolutions_app join t1 t2 :
  resolutions join (t1 ++ t2) = resolutions join t1 ++ resolutions join t2.
Proof.
  induction t1 as [|e t1 IH]; [done|].
  destruct e as [fn args|j code err|j cb err]; simpl; try done.
  destruct (j =? join)%nat; simpl; by rewrite IH.
Qed.

Lemma invocations_app join t1 t2 :
  invocations join (t1 ++ t2) = invocations join t1 ++ invocations join t2.
Proof.
  induction t1 as [|e t1 IH]; [done|].
  destruct e as [fn args|j code err|j cb err]; simpl; try done.
  destruct (j =? join)%nat; simpl; by rewrite IH.
Qed.

Lemma failures_snoc rs code err :
  failures (rs ++ [(code, err)])
  = failures rs ++ (if truthy err then [err] else []).
Proof.
  unfold failures. rewrite fmap_app, filter_app. f_equal. simpl.
  rewrite filter_cons, filter_nil.
  destruct (decide (truthy err = true)) as [->|Hf]; [done|].
  by apply not_true_is_false in Hf as ->.
Qed.

Lemma successes_snoc rs code err :
  successes (rs ++ [(code, err)])
  = successes rs ++ (if truthy err then [] else [code]).
Proof.
  unfold successes. rewrite filter_app, fmap_app. f_equal.
  rewrite filter_cons, filter_nil. simpl.
  destruct (decide (truthy err = false)) as [->|Hf]; [done|].
  by apply not_false_is_true in Hf as ->.
Qed.

Lemma successes_all rs :
  failures rs = [] -> length (successes rs) = length rs.
Proof.
  unfold failures, successes. induction rs as [|[code err] rs IH]; [done|].
  rewrite fmap_cons, !filter_cons. simpl.
  destruct (decide (truthy err = true)) as [Ht|Hf]; [done|].
  apply not_true_is_false in Hf. intros Hrs.
  destruct (decide (truthy err = false)); [|done].
  rewrite fmap_cons. simpl. by rewrite IH.
Qed.

End Observers.

Section Join.

Context (env : Env) (v : Variant).

Lemma finished_trace join callback err s :
  exists msg,
    trace (finished env join callback err s)
    = trace s ++ Log (if truthy err then logErrorFn s else logInfoFn s) msg
                 :: (if is_function callback then [Invoke join callback err] else []).
Proof.
  unfold finished. destruct (truthy err), (is_function callback); simpl;
    eexists; by rewrite <- ?app_assoc.
Qed.

Lemma joins_finished join callback err s :
  joins (finished env join callback err s) = joins s.
Proof. unfold finished. by destruct (truthy err), (is_function callback). Qed.

Lemma finished_observed join callback err s :
  resolutions join (trace (finished env join callback err s))
  = resolutions join (trace s)
  /\ invocations join (trace (finished env join callback err s))
     = invocations join (trace s) ++ (if is_function callback then [err] else []).
Proof.
  destruct (finished_trace join callback err s) as [msg ->].
  rewrite resolutions_app, invocations_app. simpl.
  destruct (is_function callback); simpl; rewrite ?Nat.eqb_refl, ?app_nil_r; done.
Qed.

(** What [done] adds to the trace and does to the join. *)
Lemma done_observed join code err s j :
  joins s !! join = Some j ->
  let fire := j_live j && (truthy err || (j_total j <=? S (j_completed j))%nat) in
  resolutions join (trace (done env join code err s))
  = resolutions join (trace s) ++ [(code, err)]
  /\ invocations join (trace (done env join code err s))
     = invocations join (trace s)
       ++ (if fire && is_function (j_callback j)
           then [if truthy err then err else VNull] else [])
  /\ joins (done env join code err s)
     = <[join := {| j_total := j_total j;
                    j_completed := if truthy err then j_completed j
                                   else S (j_completed j);
                    j_live := j_live j && negb (truthy err);
                    j_callback := j_callback j |}]> (joins s).
Proof.
  intros Hj fire. subst fire. unfold done. cbn [joins emit]. rewrite Hj.
  destruct (truthy err) eqn:Herr, (j_live j) eqn:Hlive;
    try destruct (j_total j <=? S (j_completed j))%nat eqn:Hle;
    simpl andb; simpl orb; cbv iota;
    try match goal with
      | |- context [finished env ?a ?b ?c ?d] =>
          destruct (finished_observed a b c d) as [-> ->]; rewrite joins_finished
      end;
    cbn [trace joins set_joins emit];
    rewrite resolutions_app, invocations_app; simpl;
    rewrite Nat.eqb_refl, ?app_nil_r; try done;
    by destruct (is_function (j_callback j)).
Qed.

(** [done] on the first join, while items are outstanding. *)
Lemma done_tracks callback total code err s :
  join_tracks callback total s ->
  (length (resolutions 0 (trace s)) < total)%nat ->
  join_tracks callback total (done env 0 code err s).
Proof.
  intros (Hj & Hinv & Hp) Hlen. unfold join_tracks.
  destruct (done_observed 0 code err s _ ltac:(by rewrite Hj)) as (-> & -> & ->).
  rewrite pending_done, Hj, Hinv. clear Hj Hinv.
  set (rs := resolutions 0 (trace s)) in *.
  cbn [j_total j_completed j_live j_callback insert list_insert].
  rewrite failures_snoc, successes_snoc.
  split_and!; [|  | done].
  - f_equal. f_equal.
    + destruct (truthy err); rewrite ?app_nil_r, ?length_app; simpl; lia.
    + destruct (truthy err); rewrite ?app_nil_r, ?andb_true_r, ?andb_false_r; [|done].
      symmetry. apply bool_decide_eq_false. by destruct (failures rs).
  - unfold expected_invocations. rewrite failures_snoc.
    destruct (is_function callback);
      rewrite ?andb_false_r, ?andb_true_r, ?app_nil_r; [|done].
    rewrite length_app. simpl length. rewrite Nat.add_1_r.
    replace (total <=? length rs)%nat with false
      by (symmetry; apply Nat.leb_gt; lia).
    destruct (failures rs) as [|e es] eqn:Hf.
    + rewrite bool_decide_eq_true_2 by done. rewrite (successes_all rs Hf).
      simpl. destruct (truthy err); simpl; [done|].
      by destruct (total <=? S (length rs))%nat.
    + rewrite bool_decide_eq_false_2 by done. simpl. by destruct (truthy err).
Qed.

End Join.

Section Initialize.

Context (env : Env) (v : Variant).

Lemma tracks_frame callback total s s' :
  joins s' = joins s ->
  (forall p, p ∈ pending s' -> p ∈ pending s \/ p_join p = 0%nat) ->
  resolutions 0 (trace s') = resolutions 0 (trace s) ->
  invocations 0 (trace s') = invocations 0 (trace s) ->
  join_tracks callback total s -> join_tracks callback total s'.
Proof.
  intros Hj Hp Hr Hi (Hjoins & Hinv & Hpending). unfold join_tracks.
  rewrite Hj, Hr, Hi. split_and!; [done | done |].
  intros p [Hin|Hz]%Hp; [by apply Hpending | done].
Qed.

Lemma accounted_length codes s :
  accounted codes s ->
  (length (pending s) + length (resolutions 0 (trace s)) = length codes)%nat.
Proof.
  unfold accounted. intros Hperm%Permutation_length.
  by rewrite length_app, !length_fmap in Hperm.
Qed.

Lemma remove_nth_Permutation {A} (i : nat) (l : list A) (x : A) :
  l !! i = Some x -> l ≡ₚ x :: remove_nth i l.
Proof.
  intros Hx. unfold remove_nth. rewrite <- (take_drop_middle l i x Hx) at 1.
  by rewrite Permutation_middle.
Qed.

(** One item of the loop of initialize. *)
Lemma load_item_tracks callback total processed s code :
  (length processed < total)%nat ->
  join_tracks callback total s /\ accounted processed s /\ loaded_tracks s ->
  join_tracks callback total (load_item env 0 s code)
  /\ accounted (processed ++ [code]) (load_item env 0 s code)
  /\ loaded_tracks (load_item env 0 s code).
Proof.
  intros Hlen (Hj & Ha & Hl).
  destruct (load_item_cases env 0 s code) as [(msg & p & Hc & Hz & ->)|(err & Herr & ->)].
  - split_and!.
    + eapply tracks_frame; [..|exact Hj]; cbn [joins pending trace set_pending emit];
        rewrite ?resolutions_app, ?invocations_app, ?app_nil_r; try done.
      intros q [Hq|Hq]%elem_of_app; [by left|].
      apply list_elem_of_singleton in Hq as ->. by right.
    + unfold accounted in *. cbn [pending trace set_pending emit].
      rewrite resolutions_app, app_nil_r, fmap_app. simpl. rewrite Hc.
      rewrite <- Ha. rewrite <- !app_assoc. apply Permutation_app_head.
      apply Permutation_app_comm.
    + unfold loaded_tracks in *. cbn [loadedLanguages trace set_pending emit].
      by rewrite resolutions_app, app_nil_r.
  - pose proof (accounted_length _ _ Ha) as Hn.
    destruct (done_observed env 0 code err s _
                ltac:(destruct Hj as [-> _]; done)) as (Hr & _ & _).
    split_and!.
    + apply done_tracks; [done | lia].
    + unfold accounted in *. rewrite pending_done, Hr, fmap_app. simpl.
      by rewrite app_assoc, Ha.
    + unfold loaded_tracks in *.
      erewrite loadedLanguages_config by apply config_of_done.
      by rewrite Hr, successes_snoc, Herr, app_nil_r.
Qed.

Lemma load_items_tracks callback total codes processed s :
  (length processed + length codes <= total)%nat ->
  join_tracks callback total s /\ accounted processed s /\ loaded_tracks s ->
  join_tracks callback total (foldl (load_item env 0) s codes)
  /\ accounted (processed ++ codes) (foldl (load_item env 0) s codes)
  /\ loaded_tracks (foldl (load_item env 0) s codes).
Proof.
  revert processed s. induction codes as [|code codes IH]; intros processed s Hlen Hs.
  - by rewrite app_nil_r.
  - cbn [foldl]. simpl in Hlen.
    replace (processed ++ code :: codes) with ((processed ++ [code]) ++ codes)
      by by rewrite <- app_assoc.
    apply IH; [rewrite length_app; simpl; lia|].
    apply load_item_tracks; [lia | done].
Qed.

Lemma configure_trace options :
  resolutions 0 (trace (configure env options fresh)) = []
  /\ invocations 0 (trace (configure env options fresh)) = []
  /\ joins (configure env options fresh) = []
  /\ pending (configure env options fresh) = [].
Proof. unfold configure. by destruct (_ =? _)%nat. Qed.

(** The state initialize leaves, right after configure. *)
Lemma initialize_tracks options callback :
  let s0 := configure env options fresh in
  let s := initialize env callback s0 in
  join_tracks callback (length (languageCodes s0)) s
  /\ accounted (languageCodes s0) s
  /\ loaded_tracks s.
Proof.
  intros s0 s. subst s. unfold initialize.
  destruct (configure_trace options) as (Hr & Hi & Hj & Hp). fold s0 in Hr, Hi, Hj, Hp.
  rewrite Hj. change (length (@nil Join)) with 0%nat. rewrite !app_nil_l.
  assert (loadedLanguages s0 = ∅) as Hl by apply loadedLanguages_configure.
  destruct (length (languageCodes s0) =? 0)%nat eqn:Hn.
  - apply Nat.eqb_eq in Hn. rewrite Hn. apply length_zero_iff_nil in Hn. rewrite Hn.
    destruct (finished_observed env 0 callback VNull
                (set_joins [{| j_total := 0; j_completed := 0; j_live := true;
                               j_callback := callback |}] s0)) as [Hr' Hi'].
    cbn [trace set_joins] in Hr', Hi'. rewrite Hr in Hr'. rewrite Hi in Hi'.
    split_and!.
    + unfold join_tracks. rewrite Hr', Hi', joins_finished, pending_finished.
      cbn [joins pending set_joins]. rewrite Hp. split_and!; [done | | ].
      * unfold expected_invocations. simpl. by destruct (is_function callback).
      * by intros p ?%elem_of_nil.
    + unfold accounted. rewrite Hr', pending_finished. cbn [pending set_joins].
      by rewrite Hp.
    + unfold loaded_tracks. intros code. rewrite Hr'.
      erewrite loadedLanguages_config by apply config_of_finished.
      cbn [loadedLanguages set_joins]. rewrite Hl, lookup_empty. simpl.
      split; [by intros [? ?] | by intros ?%elem_of_nil].
  - apply Nat.eqb_neq in Hn.
    apply (load_items_tracks callback _ (languageCodes s0) []); [simpl; lia|].
    split_and!.
    + unfold join_tracks. cbn [joins pending trace set_joins]. rewrite Hr, Hi, Hp.
      split_and!; [done | | by intros p ?%elem_of_nil].
      unfold expected_invocations. simpl.
      destruct (is_function callback); [|done].
      by replace (length (languageCodes s0) <=? 0)%nat with false
        by (symmetry; apply Nat.leb_gt; lia).
    + unfold accounted. cbn [pending trace set_joins]. by rewrite Hr, Hp.
    + unfold loaded_tracks. intros code. cbn [loadedLanguages trace set_joins].
      rewrite Hr, Hl, lookup_empty. simpl.
      split; [by intros [? ?] | by intros ?%elem_of_nil].
Qed.

End Initialize.

Section Completion.

Context (env : Env) (v : Variant).

Lemma getLocaleForLanguage_trace code s :
  resolutions 0 (trace (getLocaleForLanguage env v code s).2) = resolutions 0 (trace s)
  /\ invocations 0 (trace (getLocaleForLanguage env v code s).2)
     = invocations 0 (trace s).
Proof.
  unfold getLocaleForLanguage.
  destruct (truthy code && _); simpl.
  - destruct (truthy (js_get _ _)); simpl; [done|].
    destruct v; simpl; by rewrite resolutions_app, invocations_app, !app_nil_r.
  - destruct v; simpl; by rewrite resolutions_app, invocations_app, !app_nil_r.
Qed.

Lemma getLocaleForLanguage_tracks callback codes code s :
  join_tracks callback (length codes) s /\ accounted codes s /\ loaded_tracks s ->
  join_tracks callback (length codes) (getLocaleForLanguage env v code s).2
  /\ accounted codes (getLocaleForLanguage env v code s).2
  /\ loaded_tracks (getLocaleForLanguage env v code s).2.
Proof.
  intros (Hj & Ha & Hl).
  destruct (getLocaleForLanguage_state env v code s) as (Hc & Hp & Hjs).
  destruct (getLocaleForLanguage_trace code s) as (Hr & Hi).
  split_and!.
  - eapply tracks_frame; [exact Hjs | | exact Hr | exact Hi | exact Hj].
    intros p. rewrite Hp. by left.
  - unfold accounted in *. by rewrite Hp, Hr.
  - unfold loaded_tracks in *. intros c.
    erewrite loadedLanguages_config by apply Hc. by rewrite Hr.
Qed.

Lemma parsed_tracks callback codes i p r s :
  pending s !! i = Some p ->
  join_tracks callback (length codes) s /\ accounted codes s /\ loaded_tracks s ->
  let s' := parsed env p r (set_pending (remove_nth i (pending s)) s) in
  join_tracks callback (length codes) s' /\ accounted codes s' /\ loaded_tracks s'.
Proof.
  intros Hp (Hj & Ha & Hl) s'.
  pose proof (accounted_length _ _ Ha) as Hn.
  pose proof (lookup_lt_Some _ _ _ Hp) as Hi.
  assert (p_join p = 0%nat) as Hz
    by (destruct Hj as (_ & _ & Hpj); eapply Hpj, list_elem_of_lookup_2, Hp).
  assert ((p_code <$> remove_nth i (pending s))
            ++ ((resolutions 0 (trace s)).*1 ++ [p_code p]) ≡ₚ codes) as Hacc.
  { rewrite <- Ha. rewrite (remove_nth_Permutation i (pending s) p Hp) at 2.
    rewrite fmap_cons. rewrite app_assoc, <- Permutation_cons_append. done. }
  subst s'. unfold parsed. rewrite Hz.
  destruct r as [data|err]; simpl truthy; cbv iota.
  - set (s1 := emit _ _).
    assert (join_tracks callback (length codes) s1) as Hj1.
    { eapply tracks_frame; [..|exact Hj]; subst s1.
      - by destruct (negb (truthy _)).
      - intros q Hq. left.
        assert (q ∈ remove_nth i (pending s)) as Hq'
          by (by destruct (negb (truthy _))).
        exact (elem_of_remove_nth i (pending s) q Hq').
      - destruct (negb (truthy _)); cbn [trace emit set_defaultLocale
          set_loadedLanguages set_pending]; by rewrite resolutions_app, app_nil_r.
      - destruct (negb (truthy _)); cbn [trace emit set_defaultLocale
          set_loadedLanguages set_pending]; by rewrite invocations_app, app_nil_r. }
    assert (resolutions 0 (trace s1) = resolutions 0 (trace s)) as Hr1.
    { subst s1. destruct (negb (truthy _)); cbn [trace emit set_defaultLocale
        set_loadedLanguages set_pending]; by rewrite resolutions_app, app_nil_r. }
    assert (pending s1 = remove_nth i (pending s)) as Hp1
      by (subst s1; by destruct (negb (truthy _))).
    assert (loadedLanguages s1
            = <[p_code p := VLocale (p_code p) (p_plurals p) data]> (loadedLanguages s))
      as Hl1 by (subst s1; by destruct (negb (truthy _))).
    destruct (done_observed env 0 (p_code p) VUndefined s1 _
                ltac:(destruct Hj1 as [-> _]; done)) as (Hr & _ & _).
    split_and!.
    + apply done_tracks; [done | rewrite Hr1; lia].
    + unfold accounted. by rewrite pending_done, Hr, Hp1, Hr1, fmap_app.
    + unfold loaded_tracks in *. intros c.
      erewrite loadedLanguages_config by apply config_of_done.
      rewrite Hl1, Hr, Hr1, successes_snoc. simpl.
      rewrite lookup_insert, elem_of_app, list_elem_of_singleton, <- Hl.
      case_decide as Hc; [subst; split; [by right | by eexists] |].
      split; [by left | by intros [?|?]].
  - set (s1 := set_pending _ s).
    assert (join_tracks callback (length codes) s1) as Hj1.
    { eapply tracks_frame; [..|exact Hj]; subst s1; try done.
      intros q Hq. left. exact (elem_of_remove_nth i (pending s) q Hq). }
    destruct (done_observed env 0 (p_code p)
                (VError "Error" ("Error parsing po file for " ++ p_code p ++ ": "
                                 ++ to_string env err)%string) s1 _
                ltac:(destruct Hj1 as [-> _]; done)) as (Hr & _ & _).
    split_and!.
    + apply done_tracks; [done | subst s1; cbn [trace set_pending]; lia].
    + unfold accounted. by rewrite pending_done, Hr, fmap_app.
    + unfold loaded_tracks in *. intros c.
      erewrite loadedLanguages_config by apply config_of_done.
      rewrite Hr, successes_snoc. simpl. rewrite app_nil_r. apply Hl.
Qed.

Lemma step_tracks callback codes s e :
  is_configure e || is_initialize e = false ->
  join_tracks callback (length codes) s /\ accounted codes s /\ loaded_tracks s ->
  join_tracks callback (length codes) (step env v s e)
  /\ accounted codes (step env v s e)
  /\ loaded_tracks (step env v s e).
Proof.
  intros He Hs. destruct e as [options|cb|i r|code| |language original]; try done; simpl.
  - destruct (pending s !! i) as [p|] eqn:Hp; [|done].
    by apply parsed_tracks.
  - by apply getLocaleForLanguage_tracks.
  - unfold middleware. by destruct (middlewareLocale s).
  - rewrite handler_state. destruct (middlewareLocale s) eqn:Hmw; [|done]. by apply getLocaleForLanguage_tracks.
Qed.

Lemma steps_tracks callback codes events s :
  forallb (fun e => negb (is_configure e || is_initialize e)) events = true ->
  join_tracks callback (length codes) s /\ accounted codes s /\ loaded_tracks s ->
  join_tracks callback (length codes) (foldl (step env v) s events)
  /\ accounted codes (foldl (step env v) s events)
  /\ loaded_tracks (foldl (step env v) s events).
Proof.
  revert s. induction events as [|e events IH]; intros s Hev Hs; [done|].
  simpl in Hev. apply andb_true_iff in Hev as [He Hev]. apply negb_true_iff in He.
  cbn [foldl]. apply IH; [done|]. by apply step_tracks.
Qed.

End Completion.

(** C2 does not hold as stated: with German followed by an entry that has
    no plural rule, the callback of initialize has been invoked, with that
    entry's error, by the time initialize returns, while the German catalog
    is still being parsed; German is loaded afterwards and the callback is
    not invoked again. *)
Lemma callback_invoked_before_all_resolved :
  let s := run demo_env Singleton german_and_broken [EInitialize (VFunction 9)] in
  let s' := step demo_env Singleton s (EParsed 0 (ParseOk demo_data)) in
  invocations 0 (trace s) = [VStr "No plural information for xx"]
  /\ p_code <$> pending s = ["de"%string]
  /\ resolutions 0 (trace s) = [("xx"%string, VStr "No plural information for xx")]
  /\ loadedLanguages s !! "de" = None
  /\ loadedLanguages s' !! "de" = Some demo_locale
  /\ invocations 0 (trace s') = [VStr "No plural information for xx"].
Proof. by split_and!. Qed.

(** C2, amended.  After configure and one call of initialize, at any moment
    of what follows: every language code of the registry has been attempted,
    its parse being pending or its item resolved; the callback has been
    invoked at most once, with the first error as soon as an item resolved
    with one, and otherwise with no error once every item has resolved; and
    the loaded languages are the codes whose item resolved without an error,
    whatever became of the others. *)
Theorem initialize_completion (env : Env) (v : Variant) (options : Options)
    (callback : value) (events : list Event) :
  forallb (fun e => negb (is_configure e || is_initialize e)) events = true ->
  let s := run env v options (EInitialize callback :: events) in
  let codes := (default [] (opt_languages options)).*1 in
  let rs := resolutions 0 (trace s) in
  (p_code <$> pending s) ++ rs.*1 ≡ₚ codes
  /\ invocations 0 (trace s) = expected_invocations callback (length codes) rs
  /\ (forall code, is_Some (loadedLanguages s !! code) <-> code ∈ successes rs).
Proof.
  intros Hev s codes rs.
  assert (languageCodes (configure env options fresh) = codes) as Hcodes
    by (unfold configure; by destruct (_ =? _)%nat).
  pose proof (initialize_tracks env options callback) as Hinit.
  cbv zeta in Hinit. rewrite Hcodes in Hinit.
  destruct (steps_tracks env v callback codes events _ Hev Hinit) as (Hj & Ha & Hl).
  split_and!; [exact Ha | apply Hj | exact Hl].
Qed.

Lemma initialize_completion_witness :
  let s := run demo_env Singleton german_and_broken
             [EInitialize (VFunction 9); EParsed 0 (ParseOk demo_data)] in
  invocations 0 (trace s) = [VStr "No plural information for xx"]
  /\ (is_Some (loadedLanguages s !! "de") <-> "de"%string ∈ ["de"%string]).
Proof.
  destruct (initialize_completion demo_env Singleton german_and_broken (VFunction 9)
              [EParsed 0 (ParseOk demo_data)] eq_refl) as (_ & Hi & Hl).
  split; [exact Hi | exact (Hl "de"%string)].
Defined.

(** ** The wrapped render *)

Lemma extend_helpers (env : Env) (options helpers : value) :
  extend env options {[ "helpers"%string := helpers ]}
  = VObject (<["helpers"%string := helpers]> (own_props env options)).
Proof.
  unfold extend. f_equal. rewrite (right_id_L ∅ (∪)).
  symmetry. apply insert_union_singleton_l.
Qed.





(** * Further properties *)

(** ** The negotiation middleware *)

Section MiddlewareInstance.

Context (env : Env) (v : Variant).

Lemma middlewareLocale_config s s' :
  config_of s = config_of s' -> middlewareLocale s = middlewareLocale s'.
Proof. unfold config_of. congruence. Qed.

Lemma config_parsed_rest p r s :
  middlewareLocale (parsed env p r s) = middlewareLocale s
  /\ logDebugFn (parsed env p r s) = logDebugFn s
  /\ logInfoFn (parsed env p r s) = logInfoFn s
  /\ logErrorFn (parsed env p r s) = logErrorFn s.
Proof.
  unfold parsed. destruct r; simpl truthy; cbv iota.
  - set (s1 := emit _ _).
    assert (config_of (done env (p_join p) (p_code p) VUndefined s1) = config_of s1)
      as Hc by apply config_of_done.
    unfold config_of in Hc. injection Hc as _ _ _ _ _ -> -> -> _ ->.
    subst s1. by destruct (negb (truthy _)).
  - match goal with |- context [done env ?j ?c ?e s] =>
      assert (config_of (done env j c e s) = config_of s) as Hc by apply config_of_done
    end.
    unfold config_of in Hc. by injection Hc as _ _ _ _ _ -> -> -> _ ->.
Qed.

Lemma step_middlewareLocale s e :
  languageCodes s = (languages s).*1 ->
  middlewareLocale s = None \/ middlewareLocale s = Some (languageCodes s) ->
  middlewareLocale (step env v s e) = None
  \/ middlewareLocale (step env v s e) = Some (languageCodes (step env v s e)).
Proof.
  intros Hcodes Hs. destruct e as [options|callback|i r|code| |language original]; simpl.
  - destruct v; [|done]. left. unfold configure. by destruct (_ =? _)%nat.
  - by erewrite middlewareLocale_config, languageCodes_config by apply config_of_initialize.
  - destruct (pending s !! i) as [p|]; [|done].
    destruct (config_parsed_rest p r (set_pending (remove_nth i (pending s)) s)) as [-> _].
    by destruct (registry_parsed env p r (set_pending (remove_nth i (pending s)) s))
      as [-> _].
  - by erewrite middlewareLocale_config, languageCodes_config
      by apply getLocaleForLanguage_state.
  - unfold middleware. destruct (middlewareLocale s) eqn:Hm; [by rewrite Hm in * |].
    by right.
  - rewrite handler_state. destruct (middlewareLocale s) eqn:Hmw; [|by left].
    erewrite middlewareLocale_config, languageCodes_config
      by apply getLocaleForLanguage_state.
    by rewrite Hmw.
Qed.

End MiddlewareInstance.

(** X1.  The negotiation middleware is created at most once per
    configuration: in every state the module reaches it is absent or was
    built over the current language codes, a call of the factory makes it
    present over these codes, and a second call changes nothing. *)
Theorem middleware_instance_codes (env : Env) (v : Variant) (options : Options)
    (events : list Event) :
  let s := run env v options events in
  (middlewareLocale s = None \/ middlewareLocale s = Some (languageCodes s))
  /\ middlewareLocale (middleware s) = Some (languageCodes s)
  /\ middleware (middleware s) = middleware s.
Proof.
  intros s.
  assert (languageCodes s = (languages s).*1
          /\ (middlewareLocale s = None \/ middlewareLocale s = Some (languageCodes s)))
    as [Hcodes Hs].
  { subst s. unfold run.
    assert (languageCodes (configure env options fresh)
            = (languages (configure env options fresh)).*1
            /\ (middlewareLocale (configure env options fresh) = None
                \/ middlewareLocale (configure env options fresh)
                   = Some (languageCodes (configure env options fresh)))) as H0.
    { split; [apply configure_codes|]. left. unfold configure. by destruct (_ =? _)%nat. }
    revert H0. generalize (configure env options fresh).
    induction events as [|e events IH]; intros s0 [Hc Hm]; [done|].
    cbn [foldl]. apply IH. split; [by apply step_codes | by apply step_middlewareLocale]. }
  split; [done|]. unfold middleware.
  destruct Hs as [Hm|Hm]; rewrite Hm; simpl; rewrite ?Hm; done.
Qed.

(** ** The request handler *)

Section Handler.

Context (env : Env) (v : Variant).





End Handler.



(** ** Looking a language up *)

(** X4.  A language that is loaded under a non-empty code is what
    getLocaleForLanguage returns for that code, in both variants: the locale
    object whose [code] property is the code asked for, with no log call and
    no other change of state. *)
Theorem loaded_language_found (env : Env) (v : Variant) (options : Options)
    (events : list Event) (code : string) (l : value) :
  loadedLanguages (run env v options events) !! code = Some l ->
  code <> EmptyString ->
  getLocaleForLanguage env v (VStr code) (run env v options events)
  = (l, run env v options events)
  /\ get_prop env l "code" = VStr code.
Proof.
  intros Hl Hcode.
  destruct (run_locales_only env v options events _ _ Hl) as (plurals & data & ->).
  split; [|done]. unfold getLocaleForLanguage, js_get. simpl to_string. rewrite Hl.
  simpl. by destruct code.
Qed.

Lemma loaded_language_found_witness :
  getLocaleForLanguage demo_env ClassBased (VStr "de")
    (run demo_env ClassBased german_only german_loads)
  = (demo_locale, run demo_env ClassBased german_only german_loads)
  /\ get_prop demo_env demo_locale "code" = VStr "de".
Proof.
  apply (loaded_language_found demo_env ClassBased german_only german_loads "de"
           demo_locale); [reflexivity | discriminate].
Defined.



(** ** Loaded languages stay loaded *)

Section Monotone.

Context (env : Env) (v : Variant).

Lemma step_keeps_loaded s e code :
  is_configure e = false ->
  is_Some (loadedLanguages s !! code) ->
  is_Some (loadedLanguages (step env v s e) !! code).
Proof.
  intros He Hs. destruct e as [options|callback|i r|c| |language original];
    try done; simpl.
  - by erewrite loadedLanguages_config by apply config_of_initialize.
  - destruct (pending s !! i) as [p|]; [|done].
    rewrite loadedLanguages_parsed. destruct r as [data|err]; [|done].
    cbn [loadedLanguages set_pending]. rewrite lookup_insert. by case_decide.
  - by erewrite loadedLanguages_config by apply getLocaleForLanguage_state.
  - unfold middleware. by destruct (middlewareLocale s).
  - rewrite handler_state. destruct (middlewareLocale s) eqn:Hmw; [|done].
    by erewrite loadedLanguages_config by apply getLocaleForLanguage_state.
Qed.

End Monotone.

(** X6.  Between two calls of configure nothing removes a loaded language:
    whatever is initialized, parsed (with or without success), looked up or
    requested afterwards, a code that has an entry keeps one. *)
Theorem loaded_languages_stay (env : Env) (v : Variant) (s : State)
    (events : list Event) (code : string) :
  forallb (fun e => negb (is_configure e)) events = true ->
  is_Some (loadedLanguages s !! code) ->
  is_Some (loadedLanguages (foldl (step env v) s events) !! code).
Proof.
  revert s. induction events as [|e events IH]; intros s Hev Hs; [done|].
  simpl in Hev. apply andb_true_iff in Hev as [He Hev]. apply negb_true_iff in He.
  cbn [foldl]. apply IH; [done|]. by apply step_keeps_loaded.
Qed.

Lemma loaded_languages_stay_witness :
  is_Some (loadedLanguages
             (foldl (step demo_env Singleton)
                (run demo_env Singleton german_only german_loads)
                [EInitialize VUndefined; EParsed 0 (ParseErr (VStr "EACCES"));
                 EGetLocale (VStr "fr")]) !! "de").
Proof.
  apply (loaded_languages_stay demo_env Singleton
           (run demo_env Singleton german_only german_loads)
           [EInitialize VUndefined; EParsed 0 (ParseErr (VStr "EACCES"));
            EGetLocale (VStr "fr")] "de"); [reflexivity | by eexists].
Defined.

(** ** Options given to render *)

(** X7.  Given an options object, the wrapped render passes every option
    other than [helpers] on as it is, replaces an option [helpers] of the
    caller by its own, and passes the callback on unchanged. *)
Theorem render_keeps_other_options (env : Env)
    (originalRender locale view callback : value)
    (props : gmap string value) (rc : RenderCall) :
  render env originalRender locale view (VObject props) callback = Returned rc ->
  (forall k, k <> "helpers"%string -> get_prop env (rc_options rc) k = js_get props k)
  /\ get_prop env (rc_options rc) "helpers" = VObject (helpers_of env locale)
  /\ rc_callback rc = callback
  /\ rc_function rc = originalRender /\ rc_view rc = view.
Proof.
  unfold render. rewrite andb_false_r.
  destruct (get_prop_checked env locale "__"); [|done].
  intros [= <-]. rewrite extend_helpers. simpl. unfold js_get.
  split_and!; try done.
  - intros k Hk. by rewrite lookup_insert_ne.
  - by rewrite lookup_insert_eq.
Qed.

Lemma render_keeps_other_options_witness :
  exists rc,
    render demo_env (VFunction 5) demo_locale (VStr "index")
      (VObject (<["helpers"%string := VStr "mine"]> (<["title"%string := VStr "Home"]> ∅)))
      (VFunction 7) = Returned rc
    /\ get_prop demo_env (rc_options rc) "title" = VStr "Home"
    /\ get_prop demo_env (rc_options rc) "helpers"
       = VObject (helpers_of demo_env demo_locale).
Proof.
  eexists. split; [reflexivity|].
  match goal with |- get_prop _ (rc_options ?rc) _ = _ /\ _ =>
    destruct (render_keeps_other_options demo_env (VFunction 5) demo_locale (VStr "index")
                (VFunction 7)
                (<["helpers"%string := VStr "mine"]> (<["title"%string := VStr "Home"]> ∅))
                rc eq_refl) as (Hk & Hh & _)
  end.
  split; [exact (Hk "title"%string ltac:(discriminate)) | exact Hh].
Defined.

(** ** What initialize has done when it returns *)

Section Synchronous.

Context (env : Env).

Lemma languages_of_config s s' :
  config_of s = config_of s' ->
  languages s = languages s' /\ pathToTranslations s = pathToTranslations s'
  /\ logInfoFn s = logInfoFn s' /\ logErrorFn s = logErrorFn s'
  /\ logDebugFn s = logDebugFn s'.
Proof. unfold config_of. intros [= ? ? ? ? ? ? ? ? ? ?]. done. Qed.

Lemma loadable_config s s' code :
  config_of s = config_of s' ->
  loadable env s code = loadable env s' code
  /\ item_error env s code = item_error env s' code
  /\ (forall join, new_load env s join code = new_load env s' join code).
Proof.
  intros (Hl & Hp & _)%languages_of_config.
  unfold loadable, item_error, new_load, has_plurals, catalog_file.
  by rewrite Hl, Hp.
Qed.

(** The two branches of an item, by whether its code is loadable. *)
Lemma load_item_exact join s code :
  load_item env join s code
  = if loadable env s code
    then set_pending (pending s ++ [new_load env s join code])
           (emit (Log (logInfoFn s)
                    [VStr ("Loading i18n for "
                           ++ to_string env (get_prop env (registry_get (languages s) code) "name")
                           ++ " from " ++ catalog_file env s code)%string]) s)
    else done env join code (item_error env s code) s.
Proof.
  unfold load_item, loadable, item_error, has_plurals, new_load, catalog_file.
  destruct (truthy _ && truthy _ && truthy _); [|done].
  by destruct (existsSync env _).
Qed.

Lemma item_error_truthy s code : truthy (item_error env s code) = true.
Proof. unfold item_error. by destruct (has_plurals env s code). Qed.

Lemma joins_done_length join code err s :
  length (joins (done env join code err s)) = length (joins s).
Proof.
  destruct (joins s !! join) as [j|] eqn:Hj.
  - destruct (done_observed env join code err s j Hj) as (_ & _ & ->).
    by rewrite length_insert.
  - unfold done. cbn [joins emit]. by rewrite Hj.
Qed.

Lemma load_items_exact join codes s :
  is_Some (joins s !! join) ->
  pending (foldl (load_item env join) s codes)
  = pending s ++ (new_load env s join <$> filter (fun c => loadable env s c = true) codes)
  /\ resolutions join (trace (foldl (load_item env join) s codes))
     = resolutions join (trace s)
       ++ ((fun c => (c, item_error env s c))
             <$> filter (fun c => loadable env s c = false) codes).
Proof.
  revert s. induction codes as [|code codes IH]; intros s Hj.
  - simpl. by rewrite !app_nil_r.
  - cbn [foldl].
    assert (config_of (load_item env join s code) = config_of s) as Hc
      by apply config_of_load_item.
    assert (is_Some (joins (load_item env join s code) !! join)) as Hj'.
    { rewrite load_item_exact. destruct (loadable env s code); [done|].
      apply lookup_lt_is_Some. rewrite joins_done_length.
      by apply lookup_lt_is_Some. }
    destruct (IH _ Hj') as [-> ->].
    rewrite !filter_cons.
    assert (forall c, loadable env (load_item env join s code) c = loadable env s c) as Hl
      by (intros c; by apply loadable_config).
    assert (forall c, item_error env (load_item env join s code) c = item_error env s c)
      as He by (intros c; by apply loadable_config).
    assert (forall c, new_load env (load_item env join s code) join c = new_load env s join c)
      as Hn by (intros c; by apply loadable_config).
    rewrite (list_filter_iff _ (fun c => loadable env s c = true) codes)
      by (intros c; by rewrite Hl).
    rewrite (list_filter_iff (fun c => loadable env (load_item env join s code) c = false)
               (fun c => loadable env s c = false) codes)
      by (intros c; by rewrite Hl).
    rewrite (list_fmap_ext _ (new_load env s join) _ (fun _ c _ => Hn c)).
    rewrite (list_fmap_ext (fun c => (c, item_error env (load_item env join s code) c))
               (fun c => (c, item_error env s c)) _
               (fun _ c _ => f_equal (pair c) (He c))).
    rewrite load_item_exact. destruct (loadable env s code) eqn:Hcode.
    + rewrite decide_True by done. rewrite decide_False by congruence.
      cbn [pending trace set_pending emit]. rewrite resolutions_app, app_nil_r.
      split; [|done]. by rewrite fmap_cons, <- app_assoc.
    + rewrite decide_False by congruence. rewrite decide_True by done.
      rewrite pending_done. split; [done|].
      destruct Hj as [j Hj].
      destruct (done_observed env join code (item_error env s code) s j Hj) as (-> & _).
      by rewrite fmap_cons, <- app_assoc.
Qed.

End Synchronous.

Lemma initialize_resolutions (env : Env) (options : Options) (callback : value) :
  let s0 := configure env options fresh in
  resolutions 0 (trace (initialize env callback s0))
  = (fun c => (c, item_error env s0 c))
      <$> filter (fun c => loadable env s0 c = false) (languageCodes s0).
Proof.
  intros s0. unfold initialize.
  destruct (configure_trace env options) as (Hr & Hi & Hj & Hp).
  fold s0 in Hr, Hi, Hj, Hp. rewrite Hj. change (length (@nil Join)) with 0%nat.
  rewrite app_nil_l.
  destruct (length (languageCodes s0) =? 0)%nat eqn:Hn.
  - apply Nat.eqb_eq, length_zero_iff_nil in Hn. rewrite Hn. simpl.
    destruct (finished_observed env 0 callback VNull
                (set_joins [{| j_total := 0; j_completed := 0; j_live := true;
                               j_callback := callback |}] s0)) as [-> _].
    done.
  - set (s1 := set_joins _ s0).
    destruct (load_items_exact env 0 (languageCodes s0) s1 ltac:(by eexists)) as [_ ->].
    subst s1. cbn [trace set_joins]. by rewrite Hr.
Qed.

(** X8.  When initialize returns, right after configure, a parse is pending
    for exactly the language codes whose registry entry has a name and a
    plural rule and whose catalog file exists, in the order of the registry,
    each for the file [<pathToTranslations>/<code>/LC_MESSAGES/messages.po];
    every other code has resolved, in that order too, with 'No plural
    information for <code>' or 'Could not locate language file <file>'. *)
Theorem initialize_starts_loadable (env : Env) (options : Options) (callback : value) :
  let s0 := configure env options fresh in
  let s := initialize env callback s0 in
  pending s
  = new_load env s0 0 <$> filter (fun c => loadable env s0 c = true) (languageCodes s0)
  /\ resolutions 0 (trace s)
     = (fun c => (c, item_error env s0 c))
         <$> filter (fun c => loadable env s0 c = false) (languageCodes s0).
Proof.
  intros s0 s. split; [|apply initialize_resolutions].
  subst s. unfold initialize.
  destruct (configure_trace env options) as (_ & _ & Hj & Hp).
  fold s0 in Hj, Hp. rewrite Hj. change (length (@nil Join)) with 0%nat.
  rewrite app_nil_l.
  destruct (length (languageCodes s0) =? 0)%nat eqn:Hn.
  - apply Nat.eqb_eq, length_zero_iff_nil in Hn. rewrite Hn. simpl.
    by rewrite pending_finished.
  - set (s1 := set_joins _ s0).
    destruct (load_items_exact env 0 (languageCodes s0) s1 ltac:(by eexists)) as [-> _].
    subst s1. cbn [pending set_joins]. by rewrite Hp.
Qed.

Lemma failures_of_errors (env : Env) (s : State) (codes : list string) :
  failures ((fun c => (c, item_error env s c)) <$> codes) = item_error env s <$> codes.
Proof.
  unfold failures. induction codes as [|c codes IH]; [done|].
  rewrite !fmap_cons. simpl. rewrite filter_cons, decide_True by apply item_error_truthy.
  by rewrite IH.
Qed.

(** X9.  When initialize returns, right after configure, its callback has
    been invoked already if and only if the registry is empty, then without
    an error, or some code was not loadable, then with the error of the
    first such code in the order of the registry; when a parse was started
    for every code the callback is still to come. *)
Theorem callback_when_initialize_returns (env : Env) (options : Options)
    (callback : value) :
  let s0 := configure env options fresh in
  let s := initialize env callback s0 in
  invocations 0 (trace s)
  = if is_function callback then
      match languageCodes s0,
            filter (fun c => loadable env s0 c = false) (languageCodes s0) with
      | [], _ => [VNull]
      | _ :: _, c :: _ => [item_error env s0 c]
      | _ :: _, [] => []
      end
    else [].
Proof.
  intros s0 s.
  destruct (initialize_tracks env options callback) as ((_ & Hinv & _) & _ & _).
  fold s0 in Hinv. fold s in Hinv. rewrite Hinv. clear Hinv.
  pose proof (initialize_resolutions env options callback) as Hrs.
  cbv zeta in Hrs. fold s0 in Hrs. fold s in Hrs. rewrite Hrs. clear Hrs.
  unfold expected_invocations. destruct (is_function callback); [|done].
  rewrite failures_of_errors, length_fmap.
  destruct (languageCodes s0) as [|c codes]; [done|].
  destruct (filter _ (c :: codes)) as [|c' rest]; [done|done].
Qed.

(** ** Where the module logs *)

Lemma log_sinks_app (t1 t2 : list Effect) :
  log_sinks (t1 ++ t2) = log_sinks t1 ++ log_sinks t2.
Proof.
  induction t1 as [|e t1 IH]; [done|]. destruct e; simpl; by rewrite ?IH.
Qed.

Section Sinks.

Context (env : Env) (v : Variant) (P : LogFn -> Prop).

Lemma sinks_finished join callback err s :
  P (logInfoFn s) -> P (logErrorFn s) ->
  Forall P (log_sinks (trace s)) ->
  Forall P (log_sinks (trace (finished env join callback err s))).
Proof.
  intros Hi He Hs. destruct (finished_trace env join callback err s) as [msg ->].
  rewrite log_sinks_app. apply Forall_app. split; [done|].
  destruct (truthy err), (is_function callback); simpl; by repeat constructor.
Qed.

Lemma sinks_done join code err s :
  P (logInfoFn s) -> P (logErrorFn s) ->
  Forall P (log_sinks (trace s)) ->
  Forall P (log_sinks (trace (done env join code err s))).
Proof.
  intros Hi He Hs.
  assert (Forall P (log_sinks (trace (emit (Resolved join code err) s)))) as Hs'
    by (cbn [trace emit]; by rewrite log_sinks_app, app_nil_r).
  unfold done. cbn [joins emit]. destruct (joins s !! join) as [j|]; [|done].
  destruct (truthy err).
  - destruct (j_live j); [by apply sinks_finished | done].
  - destruct (_ && _); [by apply sinks_finished | done].
Qed.

Lemma sinks_load_items join codes s :
  P (logInfoFn s) -> P (logErrorFn s) ->
  Forall P (log_sinks (trace s)) ->
  Forall P (log_sinks (trace (foldl (load_item env join) s codes))).
Proof.
  revert s. induction codes as [|code codes IH]; intros s Hi He Hs; [done|].
  cbn [foldl].
  destruct (languages_of_config _ _ (config_of_load_item env join s code))
    as (_ & _ & Hinfo & Herr & _).
  apply IH; rewrite ?Hinfo, ?Herr; try done.
  rewrite load_item_exact. destruct (loadable env s code).
  - cbn [trace set_pending emit]. rewrite log_sinks_app. apply Forall_app.
    split; [done | by repeat constructor].
  - by apply sinks_done.
Qed.

Lemma sinks_initialize callback s :
  P (logInfoFn s) -> P (logErrorFn s) ->
  Forall P (log_sinks (trace s)) ->
  Forall P (log_sinks (trace (initialize env callback s))).
Proof.
  intros Hi He Hs. unfold initialize. destruct (_ =? _)%nat.
  - by apply sinks_finished.
  - by apply sinks_load_items.
Qed.

Lemma sinks_parsed p r s :
  P (logInfoFn s) -> P (logErrorFn s) ->
  Forall P (log_sinks (trace s)) ->
  Forall P (log_sinks (trace (parsed env p r s))).
Proof.
  intros Hi He Hs. unfold parsed. destruct r as [data|err]; simpl truthy; cbv iota.
  - apply sinks_done.
    + by destruct (negb (truthy _)).
    + by destruct (negb (truthy _)).
    + destruct (negb (truthy _)); cbn [trace logInfoFn emit set_defaultLocale
        set_loadedLanguages]; rewrite log_sinks_app; apply Forall_app;
        (split; [done | by repeat constructor]).
  - by apply sinks_done.
Qed.

Lemma sinks_getLocaleForLanguage code s :
  P (fallback_sink v s) ->
  Forall P (log_sinks (trace s)) ->
  Forall P (log_sinks (trace (getLocaleForLanguage env v code s).2)).
Proof.
  intros Hf Hs. unfold getLocaleForLanguage, fallback_sink in *.
  destruct (truthy code && _); simpl.
  - destruct (truthy (js_get _ _)); simpl; [done|].
    destruct v; simpl; rewrite log_sinks_app; apply Forall_app;
      (split; [done | by repeat constructor]).
  - destruct v; simpl; rewrite log_sinks_app; apply Forall_app;
      (split; [done | by repeat constructor]).
Qed.

Lemma loggers_step s e :
  is_configure e = false ->
  logInfoFn (step env v s e) = logInfoFn s
  /\ logErrorFn (step env v s e) = logErrorFn s
  /\ logDebugFn (step env v s e) = logDebugFn s.
Proof.
  intros He. destruct e as [options|callback|i r|code| |language original];
    try done; simpl.
  - by destruct (languages_of_config _ _ (config_of_initialize env callback s))
      as (_ & _ & -> & -> & ->).
  - destruct (pending s !! i) as [p|]; [|done].
    by destruct (config_parsed_rest env p r (set_pending (remove_nth i (pending s)) s))
      as (_ & -> & -> & ->).
  - by destruct (languages_of_config _ _
                   (proj1 (getLocaleForLanguage_state env v code s)))
      as (_ & _ & -> & -> & ->).
  - unfold middleware. by destruct (middlewareLocale s).
  - rewrite handler_state. destruct (middlewareLocale s) eqn:Hmw; [|done].
    by destruct (languages_of_config _ _
                   (proj1 (getLocaleForLanguage_state env v language s)))
      as (_ & _ & -> & -> & ->).
Qed.

Lemma sinks_step s e :
  is_configure e = false ->
  P (logInfoFn s) -> P (logErrorFn s) -> P (fallback_sink v s) ->
  Forall P (log_sinks (trace s)) ->
  Forall P (log_sinks (trace (step env v s e))).
Proof.
  intros Hc Hi He Hf Hs. destruct e as [options|callback|i r|code| |language original];
    try done; simpl.
  - by apply sinks_initialize.
  - destruct (pending s !! i) as [p|]; [|done]. by apply sinks_parsed.
  - by apply sinks_getLocaleForLanguage.
  - unfold middleware. by destruct (middlewareLocale s).
  - rewrite handler_state. destruct (middlewareLocale s) eqn:Hmw; [|done]. by apply sinks_getLocaleForLanguage.
Qed.

Lemma sinks_steps events s :
  forallb (fun e => negb (is_configure e)) events = true ->
  P (logInfoFn s) -> P (logErrorFn s) -> P (fallback_sink v s) ->
  Forall P (log_sinks (trace s)) ->
  Forall P (log_sinks (trace (foldl (step env v) s events))).
Proof.
  revert s. induction events as [|e events IH]; intros s Hev Hi He Hf Hs; [done|].
  simpl in Hev. apply andb_true_iff in Hev as [Hc Hev]. apply negb_true_iff in Hc.
  cbn [foldl]. destruct (loggers_step s e Hc) as (Hinfo & Herr & Hdebug).
  apply IH; rewrite ?Hinfo, ?Herr; try done.
  - unfold fallback_sink in *. destruct v; by rewrite ?Hinfo, ?Hdebug.
  - by apply sinks_step.
Qed.

End Sinks.

(** X10.  Between two calls of configure every log call of the module goes
    to the info sink or to the error sink, and in the class also to the
    debug sink.  So the warn sink is never called unless the options made it
    the same function as one of those, and neither is, by the singleton, the
    debug sink unless it is the info or the error sink.  A sink is the
    function given in the options, or the module's own logger when the
    option is not a function. *)
Theorem log_calls_go_to_info_error_debug (env : Env) (v : Variant) (options : Options)
    (events : list Event) :
  forallb (fun e => negb (is_configure e)) events = true ->
  let sinks := log_sinks (trace (run env v options events)) in
  let info := logger_or (opt_logInfoFn options) "i18n:info" in
  let error := logger_or (opt_logErrorFn options) "i18n:error" in
  let debug := logger_or (opt_logDebugFn options) "i18n:debug" in
  let warn := logger_or (opt_logWarnFn options) "i18n:warn" in
  (forall fn, fn ∈ sinks -> fn = info \/ fn = error \/ (v = ClassBased /\ fn = debug))
  /\ (warn <> info -> warn <> error -> (v = ClassBased -> warn <> debug) ->
      warn ∉ sinks)
  /\ (v = Singleton -> debug <> info -> debug <> error -> debug ∉ sinks).
Proof.
  intros Hev sinks info error debug warn.
  set (P := fun fn => fn = info \/ fn = error \/ (v = ClassBased /\ fn = debug)).
  assert (Forall P sinks) as Hall.
  { unfold sinks, run. apply sinks_steps; try done.
    - left. unfold configure. by destruct (_ =? _)%nat.
    - right. left. unfold configure. by destruct (_ =? _)%nat.
    - unfold fallback_sink, configure. destruct v, (_ =? _)%nat; simpl;
        first [by left | by right; right].
    - unfold configure. destruct (_ =? _)%nat; simpl; [|done].
      apply Forall_cons. split; [right; by left | done]. }
  pose proof (proj1 (Forall_forall _ _) Hall) as Hin.
  split_and!.
  - exact Hin.
  - intros Hi He Hd Hw. destruct (Hin _ Hw) as [?|[?|[Hv ?]]]; [done | done |].
    by apply Hd.
  - intros Hv Hi He Hd. destruct (Hin _ Hd) as [?|[?|[Hc ?]]]; [done | done |].
    by rewrite Hv in Hc.
Qed.

Lemma log_calls_go_to_info_error_debug_witness :
  DefaultLogger "i18n:info"
  ∈ log_sinks (trace (run demo_env Singleton german_only german_loads))
  /\ (DefaultLogger "i18n:warn"
      ∉ log_sinks (trace (run demo_env Singleton german_only german_loads)))
  /\ (DefaultLogger "i18n:debug"
      ∉ log_sinks (trace (run demo_env Singleton german_only german_loads))).
Proof.
  destruct (log_calls_go_to_info_error_debug demo_env Singleton german_only
              german_loads eq_refl) as (_ & Hwarn & Hdebug).
  split; [vm_compute; apply list_elem_of_here|].
  split.
  - apply Hwarn; [discriminate | discriminate | discriminate].
  - apply Hdebug; [reflexivity | discriminate | discriminate].
Defined.

(** ** The plural forms handed to Jed *)

Section PluralForms.

Context (env : Env) (v : Variant).

Lemma has_plurals_config s s' code :
  config_of s = config_of s' -> has_plurals env s code = has_plurals env s' code.
Proof. intros (Hl & _)%languages_of_config. unfold has_plurals. by rewrite Hl. Qed.

Lemma pending_initialize_exact callback s :
  pending (initialize env callback s)
  = pending s ++ (new_load env s (length (joins s))
                    <$> filter (fun c => loadable env s c = true) (languageCodes s)).
Proof.
  unfold initialize. destruct (length (languageCodes s) =? 0)%nat eqn:Hn.
  - apply Nat.eqb_eq, length_zero_iff_nil in Hn. rewrite Hn, pending_finished.
    simpl. by rewrite app_nil_r.
  - set (s1 := set_joins _ s).
    destruct (load_items_exact env (length (joins s)) (languageCodes s) s1) as [-> _].
    + subst s1. cbn [joins set_joins]. rewrite lookup_app_r by done.
      rewrite Nat.sub_diag. by eexists.
    + done.
Qed.

Lemma from_registry_frame s s' :
  config_of s' = config_of s -> pending s' = pending s ->
  from_registry env s -> from_registry env s'.
Proof.
  intros Hc Hp [Hl Hq]. pose proof (languages_of_config _ _ Hc) as (Hlang & _).
  split.
  - intros code l. rewrite (loadedLanguages_config _ _ Hc), (has_plurals_config _ _ _ Hc),
      Hlang. apply Hl.
  - intros p. rewrite Hp, (has_plurals_config _ _ _ Hc), Hlang. apply Hq.
Qed.

Lemma step_from_registry s e :
  (is_configure e = true -> v = Singleton -> pending s = []) ->
  from_registry env s -> from_registry env (step env v s e).
Proof.
  intros Hcalm Hs.
  destruct e as [options|callback|i r|code| |language original]; simpl.
  - destruct v; [|done]. specialize (Hcalm eq_refl eq_refl). split.
    + intros code l. by rewrite loadedLanguages_configure, lookup_empty.
    + intros p. unfold configure. destruct (_ =? _)%nat; simpl; rewrite Hcalm;
        by intros ?%elem_of_nil.
  - destruct Hs as [Hl Hq].
    pose proof (config_of_initialize env callback s) as Hc.
    pose proof (languages_of_config _ _ Hc) as (Hlang & _).
    split.
    + intros code l. rewrite (loadedLanguages_config _ _ Hc),
        (has_plurals_config _ _ _ Hc), Hlang. apply Hl.
    + intros p. rewrite pending_initialize_exact, (has_plurals_config _ _ _ Hc), Hlang.
      intros [Hp|Hp]%elem_of_app; [by apply Hq|].
      apply list_elem_of_fmap in Hp as (c & -> & Hc').
      apply list_elem_of_filter in Hc' as [Hload _].
      apply andb_true_iff in Hload as [Hpl _]. done.
  - destruct (pending s !! i) as [p|] eqn:Hp; [|done].
    destruct Hs as [Hl Hq].
    destruct (Hq p (list_elem_of_lookup_2 _ _ _ Hp)) as [Hpl Hpf].
    set (s1 := set_pending _ s).
    destruct (registry_parsed env p r s1) as [_ Hlang].
    assert (forall c, has_plurals env (parsed env p r s1) c = has_plurals env s c) as Hhp
      by (intros c; unfold has_plurals; by rewrite Hlang).
    split.
    + intros code l. rewrite Hhp, Hlang, loadedLanguages_parsed.
      destruct r as [data|err]; [|apply Hl].
      subst s1. cbn [loadedLanguages languages set_pending]. rewrite lookup_insert.
      case_decide as Hc; [|apply Hl].
      intros [= <-]. subst code. split; [done|]. rewrite Hpf. by eexists.
    + intros q. rewrite Hhp, Hlang.
      assert (pending (parsed env p r s1) = remove_nth i (pending s)) as ->.
      { unfold parsed. destruct r; simpl truthy; cbv iota; rewrite pending_done;
          [by destruct (negb (truthy _)) | done]. }
      intros Hq'%elem_of_remove_nth. by apply Hq.
  - destruct (getLocaleForLanguage_state env v code s) as (Hc & Hp & _).
    by apply (from_registry_frame s).
  - unfold middleware. by destruct (middlewareLocale s).
  - rewrite handler_state. destruct (middlewareLocale s) eqn:Hmw; [|done].
    destruct (getLocaleForLanguage_state env v language s) as (Hc & Hp & _).
    by apply (from_registry_frame s).
Qed.

Lemma steps_from_registry events s :
  (v = Singleton -> calm env v s events = true) ->
  from_registry env s -> from_registry env (foldl (step env v) s events).
Proof.
  revert s. induction events as [|e events IH]; intros s Hcalm Hs; [done|].
  cbn [foldl]. apply IH.
  - intros Hv. specialize (Hcalm Hv). simpl in Hcalm.
    by apply andb_true_iff in Hcalm as [_ ?].
  - apply step_from_registry; [|done].
    intros He Hv. specialize (Hcalm Hv). simpl in Hcalm.
    apply andb_true_iff in Hcalm as [Hc _]. rewrite He in Hc.
    by apply bool_decide_eq_true in Hc.
Qed.

End PluralForms.

(** X11.  For the class, and for the singleton as long as configure is not
    called while a catalog is being parsed: the [plural_forms] a loaded
    locale was built with is the whole registry entry of its code, the object
    that has the truthy properties [name] and [plurals], not the plural rule
    inside it. *)
Theorem plural_forms_is_registry_entry (env : Env) (v : Variant) (options : Options)
    (events : list Event) (code c : string) (plurals : value) (data : PoData) :
  (v = Singleton -> calm env v (configure env options fresh) events = true) ->
  let s := run env v options events in
  loadedLanguages s !! code = Some (VLocale c plurals data) ->
  c = code
  /\ plurals = registry_get (languages s) code
  /\ truthy (get_prop env plurals "name") = true
  /\ truthy (get_prop env plurals "plurals") = true.
Proof.
  intros Hcalm s Hl.
  assert (from_registry env s) as [Hloaded _].
  { apply steps_from_registry; [done|]. split.
    - intros k l. by rewrite loadedLanguages_configure, lookup_empty.
    - intros p. unfold configure. destruct (_ =? _)%nat; simpl; by intros ?%elem_of_nil. }
  destruct (Hloaded _ _ Hl) as (Hpl & data' & [= -> -> ->]).
  unfold has_plurals in Hpl. apply andb_true_iff in Hpl as [Hpl Hp].
  apply andb_true_iff in Hpl as [_ Hn]. done.
Qed.

Lemma plural_forms_is_registry_entry_witness :
  german = registry_get (languages (run demo_env Singleton german_only german_loads)) "de"
  /\ truthy (get_prop demo_env german "plurals") = true.
Proof.
  destruct (plural_forms_is_registry_entry demo_env Singleton german_only german_loads
              "de" "de" german demo_data (fun _ => eq_refl) eq_refl)
    as (_ & H1 & _ & H2).
  split; [exact H1 | exact H2].
Defined.

(** ** The callback of initialize is invoked at most once *)

Section Once.

Context (env : Env) (v : Variant).

Lemma pending_for_app join ps qs :
  pending_for join (ps ++ qs) = (pending_for join ps + pending_for join qs)%nat.
Proof. unfold pending_for. by rewrite filter_app, length_app. Qed.

Lemma pending_for_remove join i ps p :
  ps !! i = Some p ->
  pending_for join ps
  = ((if decide (p_join p = join) then 1 else 0) + pending_for join (remove_nth i ps))%nat.
Proof.
  intros Hp. unfold pending_for.
  rewrite (Permutation_length
             (filter_Permutation _ _ _ (remove_nth_Permutation i ps p Hp))).
  rewrite filter_cons. by destruct (decide (p_join p = join)).
Qed.

Lemma budget_frame slack s s' join :
  joins s' !! join = joins s !! join ->
  invocations join (trace s') = invocations join (trace s) ->
  pending_for join (pending s') = pending_for join (pending s) ->
  join_budget slack s join -> join_budget slack s' join.
Proof. unfold join_budget. by intros -> -> ->. Qed.

Lemma finished_other join join' callback err s :
  join' <> join ->
  invocations join' (trace (finished env join callback err s))
  = invocations join' (trace s).
Proof.
  intros Hne. destruct (finished_trace env join callback err s) as [msg ->].
  rewrite invocations_app. simpl.
  destruct (is_function callback); simpl; rewrite ?app_nil_r; [|done].
  apply Nat.eqb_neq in Hne. rewrite Nat.eqb_sym in Hne. by rewrite Hne, app_nil_r.
Qed.

Lemma done_other slack join join' code err s :
  join' <> join ->
  join_budget slack s join' -> join_budget slack (done env join code err s) join'.
Proof.
  intros Hne. apply budget_frame; [| |by rewrite pending_done].
  - unfold done. cbn [joins emit]. destruct (joins s !! join) as [j|]; [|done].
    destruct (truthy err).
    + destruct (j_live j); rewrite ?joins_finished; cbn [joins set_joins emit];
        by rewrite list_lookup_insert_ne.
    + destruct (_ && _); rewrite ?joins_finished; cbn [joins set_joins emit];
        by rewrite list_lookup_insert_ne.
  - unfold done. cbn [joins emit].
    assert (invocations join' (trace (emit (Resolved join code err) s))
            = invocations join' (trace s)) as Hemit
      by (cbn [trace emit]; by rewrite invocations_app, app_nil_r).
    destruct (joins s !! join) as [j|]; [|done].
    destruct (truthy err).
    + destruct (j_live j); rewrite ?finished_other by done; done.
    + destruct (_ && _); rewrite ?finished_other by done; done.
Qed.

(** [done] uses up one unit of slack of its own join. *)
Lemma done_budget slack join code err s :
  join_budget (S slack) s join -> join_budget slack (done env join code err s) join.
Proof.
  unfold join_budget at 1. destruct (joins s !! join) as [j|] eqn:Hj.
  - intros [Hlen Hlive]. unfold join_budget.
    destruct (done_observed env join code err s j Hj) as (_ & -> & ->).
    rewrite list_lookup_insert_eq by (by eapply lookup_lt_Some).
    rewrite pending_done. cbn [j_total j_completed j_live].
    destruct (j_live j) eqn:Hl.
    + destruct (Hlive eq_refl) as [Hfit Hinv].
      assert (invocations join (trace s) = []) as ->.
      { destruct (invocations join (trace s)) as [|x xs] eqn:Hx; [done|].
        assert (j_total j <= j_completed j)%nat by (by apply Hinv). lia. }
      simpl. split.
      * destruct (_ && is_function _); simpl; lia.
      * destruct (truthy err); simpl; [done|]. intros _. split; [lia|].
        destruct (j_total j <=? S (j_completed j))%nat eqn:Hle; simpl.
        -- intros _. by apply Nat.leb_le.
        -- done.
    + simpl. by rewrite app_nil_r.
  - intros [Hp Hi]. unfold join_budget, done. cbn [joins emit]. rewrite Hj.
    cbn [joins pending trace emit]. rewrite Hj, invocations_app. simpl.
    by rewrite app_nil_r.
Qed.

Lemma pending_for_singleton join p :
  pending_for join [p] = if decide (p_join p = join) then 1%nat else 0%nat.
Proof.
  unfold pending_for. rewrite filter_cons, filter_nil.
  by destruct (decide (p_join p = join)).
Qed.

Lemma load_item_budget slack join s code :
  is_Some (joins s !! join) ->
  join_budget (S slack) s join -> join_budget slack (load_item env join s code) join.
Proof.
  intros [j Hj]. rewrite load_item_exact.
  destruct (loadable env s code); [|apply done_budget].
  unfold join_budget. cbn [joins pending trace set_pending emit].
  rewrite invocations_app, app_nil_r, pending_for_app, pending_for_singleton.
  simpl. rewrite decide_True by done. rewrite Hj.
  intros [Hlen Hlive]. split; [done|]. intros Hl.
  destruct (Hlive Hl) as [Hfit Hinv]. split; [lia | done].
Qed.

Lemma load_item_joins join s code :
  is_Some (joins s !! join) -> is_Some (joins (load_item env join s code) !! join).
Proof.
  intros Hj. rewrite load_item_exact. destruct (loadable env s code); [done|].
  apply lookup_lt_is_Some. rewrite joins_done_length. by apply lookup_lt_is_Some.
Qed.

Lemma load_item_other slack join join' s code :
  join' <> join ->
  join_budget slack s join' -> join_budget slack (load_item env join s code) join'.
Proof.
  intros Hne. rewrite load_item_exact.
  destruct (loadable env s code); [|by apply done_other].
  apply budget_frame; cbn [joins pending trace set_pending emit]; [done | |].
  - by rewrite invocations_app, app_nil_r.
  - rewrite pending_for_app, pending_for_singleton. simpl.
    rewrite decide_False by done. lia.
Qed.

Lemma load_items_budget slack join codes s :
  is_Some (joins s !! join) ->
  join_budget (length codes + slack) s join ->
  join_budget slack (foldl (load_item env join) s codes) join.
Proof.
  revert s. induction codes as [|code codes IH]; intros s Hj Hs; [done|].
  cbn [foldl]. apply IH; [by apply load_item_joins | by apply load_item_budget].
Qed.

Lemma load_items_other slack join join' codes s :
  join' <> join ->
  join_budget slack s join' ->
  join_budget slack (foldl (load_item env join) s codes) join'.
Proof.
  intros Hne. revert s. induction codes as [|code codes IH]; intros s Hs; [done|].
  cbn [foldl]. by apply IH, load_item_other.
Qed.

Lemma initialize_budget callback s :
  (forall join, join_budget 0 s join) ->
  forall join, join_budget 0 (initialize env callback s) join.
Proof.
  intros Hs join. unfold initialize.
  set (j0 := length (joins s)).
  set (s1 := set_joins _ s).
  assert (joins s !! j0 = None) as Hnone by (by apply lookup_ge_None_2).
  pose proof (Hs j0) as H0. unfold join_budget in H0. rewrite Hnone in H0.
  destruct H0 as [Hp0 Hi0].
  destruct (decide (join = j0)) as [->|Hne].
  - assert (joins s1 !! j0
            = Some {| j_total := length (languageCodes s); j_completed := 0;
                      j_live := true; j_callback := callback |}) as Hj1.
    { subst s1. cbn [joins set_joins]. rewrite lookup_app_r by done.
      fold j0. by rewrite Nat.sub_diag. }
    assert (join_budget (length (languageCodes s)) s1 j0) as H1.
    { unfold join_budget. rewrite Hj1. subst s1. cbn [pending trace set_joins].
      rewrite Hi0, Hp0. simpl. split; [lia|]. intros _. split; [lia | done]. }
    destruct (length (languageCodes s) =? 0)%nat eqn:Hn.
    + apply Nat.eqb_eq in Hn. unfold join_budget.
      rewrite joins_finished, pending_finished, Hj1.
      destruct (finished_observed env j0 callback VNull s1) as [_ ->].
      subst s1. cbn [pending trace set_joins j_live j_total j_completed].
      rewrite Hi0, Hp0, Hn. simpl.
      split; [destruct (is_function callback); simpl; lia|].
      intros _. split; [lia|]. intros _. lia.
    + apply load_items_budget; [by rewrite Hj1 | by rewrite Nat.add_0_r].
  - assert (join_budget 0 s1 join) as H1.
    { apply (budget_frame 0 s); [| done | done | apply Hs].
      subst s1. cbn [joins set_joins].
      destruct (decide (join < j0)%nat) as [Hlt|Hge].
      - by rewrite lookup_app_l.
      - rewrite !lookup_ge_None_2; [done | fold j0; lia |].
        rewrite length_app. simpl. fold j0. lia. }
    destruct (length (languageCodes s) =? 0)%nat.
    + apply (budget_frame 0 s1); [by rewrite joins_finished | | by rewrite pending_finished
                                 | done].
      by apply finished_other.
    + by apply load_items_other.
Qed.

Lemma parsed_budget i p r s :
  pending s !! i = Some p ->
  (forall join, join_budget 0 s join) ->
  forall join,
    join_budget 0 (parsed env p r (set_pending (remove_nth i (pending s)) s)) join.
Proof.
  intros Hp Hs join. set (s1 := set_pending _ s).
  assert (forall k, invocations k (trace s1) = invocations k (trace s)) as Htr by done.
  set (s2 := match r with
             | ParseOk data =>
                 let s' := set_loadedLanguages
                             (<[p_code p := VLocale (p_code p) (p_plurals p) data]>
                                (loadedLanguages s1)) s1 in
                 let s' := if negb (truthy (defaultLocale s'))
                           then set_defaultLocale (VLocale (p_code p) (p_plurals p) data) s'
                           else s' in
                 emit (Log (logInfoFn s') [VStr ("Loading Finished i18n for " ++ p_code p)%string]) s'
             | ParseErr _ => s1
             end).
  assert (joins s2 = joins s /\ pending s2 = remove_nth i (pending s)
          /\ forall k, invocations k (trace s2) = invocations k (trace s)) as (Hj2 & Hp2 & Ht2).
  { subst s2. destruct r as [data|err]; [|done].
    cbv zeta. destruct (negb (truthy _)); cbn [joins pending trace emit set_defaultLocale
      set_loadedLanguages]; (split_and!; [done | done |]);
      intros k; by rewrite invocations_app, app_nil_r. }
  assert (exists err', parsed env p r s1 = done env (p_join p) (p_code p) err' s2)
    as [err' ->].
  { subst s2. unfold parsed. destruct r as [data|err]; simpl truthy; cbv iota; by eexists. }
  pose proof (pending_for_remove join i (pending s) p Hp) as Hrem.
  destruct (decide (p_join p = join)) as [<-|Hne].
  - apply done_budget. pose proof (Hs (p_join p)) as Hb. unfold join_budget in *.
    rewrite Hj2, Hp2, Ht2. destruct (joins s !! p_join p) as [j|]; [|lia].
    destruct Hb as [Hlen Hlive]. split; [done|]. intros Hl.
    destruct (Hlive Hl) as [Hfit Hinv]. split; [lia | done].
  - apply done_other; [done|].
    apply (budget_frame 0 s); [by rewrite Hj2 | by rewrite Ht2 | | apply Hs].
    rewrite Hp2. simpl in Hrem. lia.
Qed.

Lemma getLocaleForLanguage_invocations code s join :
  invocations join (trace (getLocaleForLanguage env v code s).2)
  = invocations join (trace s).
Proof.
  unfold getLocaleForLanguage.
  destruct (truthy code && _); simpl.
  - destruct (truthy (js_get _ _)); simpl; [done|].
    destruct v; simpl; by rewrite invocations_app, app_nil_r.
  - destruct v; simpl; by rewrite invocations_app, app_nil_r.
Qed.

Lemma step_budget s e :
  (forall join, join_budget 0 s join) ->
  forall join, join_budget 0 (step env v s e) join.
Proof.
  intros Hs. destruct e as [options|callback|i r|code| |language original]; simpl.
  - destruct v; [|done]. intros join. apply (budget_frame 0 s); [| | |apply Hs].
    + unfold configure. by destruct (_ =? _)%nat.
    + unfold configure. destruct (_ =? _)%nat; cbn [trace emit]; [|done].
      by rewrite invocations_app, app_nil_r.
    + unfold configure. by destruct (_ =? _)%nat.
  - by apply initialize_budget.
  - destruct (pending s !! i) as [p|] eqn:Hp; [|done]. by apply parsed_budget.
  - intros join. destruct (getLocaleForLanguage_state env v code s) as (_ & Hp & Hj).
    apply (budget_frame 0 s); [by rewrite Hj | | by rewrite Hp | apply Hs].
    apply getLocaleForLanguage_invocations.
  - unfold middleware. by destruct (middlewareLocale s).
  - rewrite handler_state. destruct (middlewareLocale s) eqn:Hmw; [|done]. intros join.
    destruct (getLocaleForLanguage_state env v language s) as (_ & Hp & Hj).
    apply (budget_frame 0 s); [by rewrite Hj | | by rewrite Hp | apply Hs].
    apply getLocaleForLanguage_invocations.
Qed.

End Once.

(** X12.  In every history, whatever is configured anew, initialized again or
    parsed in whatever order, the callback given to a call of initialize is
    invoked at most once. *)
Theorem callback_invoked_at_most_once (env : Env) (v : Variant) (options : Options)
    (events : list Event) (join : nat) :
  (length (invocations join (trace (run env v options events))) <= 1)%nat.
Proof.
  assert (forall j, join_budget 0 (run env v options events) j) as Hall.
  { unfold run.
    assert (forall j, join_budget 0 (configure env options fresh) j) as H0.
    { intros j. unfold join_budget, configure.
      destruct (_ =? _)%nat; cbn [joins pending trace emit fresh]; by rewrite lookup_nil. }
    revert H0. generalize (configure env options fresh).
    induction events as [|e events IH]; intros s0 H0; [done|].
    cbn [foldl]. by apply IH, step_budget. }
  specialize (Hall join). unfold join_budget in Hall.
  destruct (joins _ !! join); [by destruct Hall | destruct Hall as [_ ->]; simpl; lia].
Qed.

(** ** What the callback tells *)

Lemma successes_failures_length (rs : list (string * value)) :
  (length (successes rs) + length (failures rs) = length rs)%nat.
Proof.
  unfold successes, failures. induction rs as [|[code err] rs IH]; [done|].
  rewrite fmap_cons, !filter_cons. cbn [fst snd]. rewrite length_fmap in *.
  destruct (truthy err) eqn:Herr; repeat case_decide; try congruence;
    simpl; rewrite ?length_fmap; lia.
Qed.

Lemma successes_when_no_failure (rs : list (string * value)) :
  failures rs = [] -> successes rs = rs.*1.
Proof.
  unfold successes, failures. induction rs as [|[code err] rs IH]; [done|].
  rewrite fmap_cons, !filter_cons. simpl.
  destruct (truthy err) eqn:Herr.
  - by rewrite decide_True by done.
  - rewrite decide_False, decide_True by congruence. intros Hrs.
    rewrite !fmap_cons. simpl. by rewrite IH.
Qed.

(** X13.  Once every item of an initialize has resolved, a callback that is
    a function has been invoked exactly once, and the registry having no
    duplicate keys, it received no error if and only if every language code
    of the registry is loaded. *)
Theorem callback_tells_whether_all_loaded (env : Env) (v : Variant)
    (options : Options) (callback : value) (events : list Event) :
  forallb (fun e => negb (is_configure e || is_initialize e)) events = true ->
  is_function callback = true ->
  NoDup (default [] (opt_languages options)).*1 ->
  let s := run env v options (EInitialize callback :: events) in
  pending s = [] ->
  exists err,
    invocations 0 (trace s) = [err]
    /\ (truthy err = false
        <-> forall code, code ∈ (default [] (opt_languages options)).*1 ->
                         is_Some (loadedLanguages s !! code)).
Proof.
  intros Hev Hfn Hnodup s Hquiet.
  set (codes := (default [] (opt_languages options)).*1) in *.
  assert (languageCodes (configure env options fresh) = codes) as Hcodes
    by (unfold configure; by destruct (_ =? _)%nat).
  pose proof (initialize_tracks env options callback) as Hinit.
  cbv zeta in Hinit. rewrite Hcodes in Hinit.
  destruct (steps_tracks env v callback codes events _ Hev Hinit)
    as ((_ & Hinv & _) & Ha & Hl).
  change (foldl (step env v) (initialize env callback (configure env options fresh)) events)
    with s in Hinv, Ha, Hl.
  unfold accounted in Ha. rewrite Hquiet in Ha. simpl in Ha.
  set (rs := resolutions 0 (trace s)) in *.
  pose proof (Permutation_length Ha) as Hlen. rewrite length_fmap in Hlen.
  pose proof (successes_failures_length rs) as Hsum.
  rewrite Hinv. unfold expected_invocations. rewrite Hfn.
  destruct (failures rs) as [|e es] eqn:Hf.
  - replace (length codes <=? length rs)%nat with true
      by (symmetry; apply Nat.leb_le; lia).
    exists VNull. split; [done|]. split; [|done]. intros _ code Hcode.
    apply (proj2 (Hl code)). change (code ∈ successes rs).
    rewrite (successes_when_no_failure rs Hf), Ha. done.
  - exists e. split; [done|].
    assert (truthy e = true) as He.
    { assert (e ∈ failures rs) as Hin by (rewrite Hf; apply list_elem_of_here).
      unfold failures in Hin. by apply list_elem_of_filter in Hin as [? _]. }
    rewrite He. split; [done|]. intros Hall. exfalso.
    assert (codes ⊆+ successes rs) as Hsub.
    { apply NoDup_submseteq; [done|]. intros code Hcode.
      change (code ∈ successes (resolutions 0 (trace s))).
      apply (proj1 (Hl code)). by apply Hall. }
    apply submseteq_length in Hsub. simpl in Hsum. lia.
Qed.

Lemma callback_tells_whether_all_loaded_witness :
  exists err,
    invocations 0 (trace (run demo_env Singleton german_only german_loads)) = [err]
    /\ (truthy err = false
        <-> forall code, code ∈ ["de"%string] ->
              is_Some (loadedLanguages (run demo_env Singleton german_only german_loads)
                         !! code)).
Proof.
  apply (callback_tells_whether_all_loaded demo_env Singleton german_only (VFunction 9)
           [EParsed 0 (ParseOk [("Hello"%string, ["Hallo"%string])])]);
    [reflexivity | reflexivity | | reflexivity].
  apply NoDup_singleton.
Defined.

(** ** A parse that fails *)

Lemma resolutions_done (env : Env) (join : nat) (code : string) (err : value)
    (s : State) :
  resolutions join (trace (done env join code err s))
  = resolutions join (trace s) ++ [(code, err)].
Proof.
  destruct (joins s !! join) as [j|] eqn:Hj.
  - by destruct (done_observed env join code err s j Hj) as (-> & _).
  - unfold done. cbn [joins emit]. rewrite Hj. cbn [trace emit].
    rewrite resolutions_app. simpl. by rewrite Nat.eqb_refl.
Qed.

(** X14.  A parse that fails resolves its item with an Error that names the
    language code and the error of the parser, and leaves the loaded
    languages and the default locale as they were. *)
Theorem failed_parse_registers_nothing (env : Env) (v : Variant) (s : State)
    (i : nat) (p : PendingLoad) (err : value) :
  pending s !! i = Some p ->
  let s' := step env v s (EParsed i (ParseErr err)) in
  loadedLanguages s' = loadedLanguages s
  /\ defaultLocale s' = defaultLocale s
  /\ pending s' = remove_nth i (pending s)
  /\ resolutions (p_join p) (trace s')
     = resolutions (p_join p) (trace s)
       ++ [(p_code p,
            VError "Error" ("Error parsing po file for " ++ p_code p ++ ": "
                            ++ to_string env err)%string)].
Proof.
  intros Hp s'. subst s'. unfold step. rewrite Hp.
  rewrite loadedLanguages_parsed, defaultLocale_parsed.
  unfold parsed. by rewrite pending_done, resolutions_done.
Qed.

Lemma failed_parse_registers_nothing_witness :
  let s := run demo_env Singleton german_only [EInitialize (VFunction 9)] in
  let s' := step demo_env Singleton s (EParsed 0 (ParseErr (VStr "EACCES"))) in
  loadedLanguages s' = ∅
  /\ invocations 0 (trace s') = [VError "Error" "Error parsing po file for de: EACCES"].
Proof.
  destruct (failed_parse_registers_nothing demo_env Singleton
              (run demo_env Singleton german_only [EInitialize (VFunction 9)])
              0 (new_load demo_env (configure demo_env german_only fresh) 0 "de")
              (VStr "EACCES") eq_refl) as (Hl & _).
  split; [exact Hl | reflexivity].
Defined.
